(** * netconf session engine (message.go)

    A shallow embedding of the session engine of the NETCONF client:
    the channel pool, the response correlation queue, the submission
    path (Execute, ExecuteAsync, Subscribe), the handshake (NewSession),
    the dispatch loop (handleInput) and its teardown (closeChannels).

    Goroutines and channels are modelled by explicit state passing.  A
    session state carries the fields of [sesImpl] together with the part
    of the Go runtime the code depends on: which channels are closed,
    which delivery goroutines are blocked in a send, and what has been
    written to the transport.  Every function below is one critical
    section or one sequential stretch of a source function; a blocking
    receive splits the caller into the part before and the part after
    it. *)

From stdpp Require Import base list gmap strings.

Set Default Proof Using "Type".

(** ** Wire types *)

(** [error] values: [io.EOF] is the only one the code tells apart. *)
Inductive error :=
| EOF
| Err (msg : string).

#[global] Instance error_eq_dec : EqDecision error.
Proof. solve_decision. Defined.

(** Modelled from the spec: [xml.Name], a namespace and a local name. *)
Record Name := mkName { Space : string; Local : string }.

#[global] Instance Name_eq_dec : EqDecision Name.
Proof. solve_decision. Defined.

(** Modelled from the spec: the request body, a raw serialized payload. *)
Definition Request := string.

(** Modelled from the spec: the hello envelope, a list of capability URIs. *)
Record HelloMessage := mkHello { Capabilities : list string }.

(** Modelled from the spec: the outbound rpc envelope, a generated
    message identifier and the payload bytes.  The identifier generator
    is opaque; the n-th identifier drawn is represented by [n]. *)
Record RPCMessage := mkRPC { MessageID : nat; Methods : string }.

(** Modelled from the spec: the rpc-reply envelope, an opaque payload. *)
Record RPCReply := mkReply { Data : string }.

(** Modelled from the spec: the event element of a notification
    envelope (element name and inner body) and the decoded envelope
    (event timestamp and event). *)
Record EventT := mkEvent { XMLName : Name; Event : string }.
Record NotificationMessage :=
  mkNotifMsg { EventTime : string; NEvent : EventT }.

(** Modelled from the spec: the public notification handed to the
    subscriber. *)
Record Notification :=
  mkNotif { NXMLName : Name; NEventTime : string; NBody : string }.

(** What the encoder is asked to write. *)
Inductive Envelope :=
| EnvHello (h : HelloMessage)
| EnvRPC (m : RPCMessage).

Definition netconfNS : string := "urn:ietf:params:xml:ns:netconf:base:1.0".
Definition netconfNotifyNS : string :=
  "urn:ietf:params:xml:ns:netconf:notification:1.0".
Definition nameHello : Name := mkName netconfNS "hello".
Definition nameRPCReply : Name := mkName netconfNS "rpc-reply".
Definition notification : Name := mkName netconfNotifyNS "notification".
Definition CapBase10 : string := "urn:ietf:params:netconf:base:1.0".
Definition CapBase11 : string := "urn:ietf:params:netconf:base:1.1".

Definition DefaultCapabilities : list string := [CapBase10].

(** ** Channels

    A channel value is [Some c] for the channel with identity [c], or
    [None] for the nil channel.  Reply channels ([chan *RPCReply]) and
    notification channels ([chan *Notification]) are different Go types
    and live in separate name spaces. *)
Definition rchan := option nat.
Definition nchan := option nat.

(** What the loggers are asked to print ([LogUnexpected] goes to
    standard output, the others to the event log). *)
Inductive log_entry :=
| LogTokenError (e : error)
| LogDecodeError (e : error)
| LogCloseFailed (e : error)
| LogUnexpected (n : Name).

(** ** Session state *)
Record sesImpl := mkSes {
  (* fields of the source struct *)
  pool : list rchan;
  responseq : list rchan;
  subchan : nchan;
  hello : option HelloMessage;
  (* the handshake channel: the hello handed over on it, and whether it
     has been closed *)
  hellochan : option HelloMessage;
  hellochan_closed : bool;
  (* encoder and framing codec *)
  enc : Envelope -> option error;
  sent : list Envelope;
  chunked : bool;
  evtlog : list log_entry;
  (* runtime: fresh names, closed channels, blocked delivery goroutines,
     notifications handed to subscribers *)
  next_chan : nat;
  next_uuid : nat;
  closed_r : gset nat;
  closed_n : gset nat;
  tasks : list (rchan * RPCReply);
  notified : list (nat * Notification)
}.

Definition set_pool (v : list rchan) (s : sesImpl) : sesImpl :=
  mkSes v (responseq s) (subchan s) (hello s) (hellochan s)
    (hellochan_closed s) (enc s) (sent s) (chunked s) (evtlog s)
    (next_chan s) (next_uuid s) (closed_r s) (closed_n s) (tasks s)
    (notified s).
Definition set_responseq (v : list rchan) (s : sesImpl) : sesImpl :=
  mkSes (pool s) v (subchan s) (hello s) (hellochan s)
    (hellochan_closed s) (enc s) (sent s) (chunked s) (evtlog s)
    (next_chan s) (next_uuid s) (closed_r s) (closed_n s) (tasks s)
    (notified s).
Definition set_subchan (v : nchan) (s : sesImpl) : sesImpl :=
  mkSes (pool s) (responseq s) v (hello s) (hellochan s)
    (hellochan_closed s) (enc s) (sent s) (chunked s) (evtlog s)
    (next_chan s) (next_uuid s) (closed_r s) (closed_n s) (tasks s)
    (notified s).
Definition set_hello (v : option HelloMessage) (s : sesImpl) : sesImpl :=
  mkSes (pool s) (responseq s) (subchan s) v (hellochan s)
    (hellochan_closed s) (enc s) (sent s) (chunked s) (evtlog s)
    (next_chan s) (next_uuid s) (closed_r s) (closed_n s) (tasks s)
    (notified s).
Definition set_hellochan (v : option HelloMessage) (s : sesImpl) : sesImpl :=
  mkSes (pool s) (responseq s) (subchan s) (hello s) v
    (hellochan_closed s) (enc s) (sent s) (chunked s) (evtlog s)
    (next_chan s) (next_uuid s) (closed_r s) (closed_n s) (tasks s)
    (notified s).
Definition set_hellochan_closed (v : bool) (s : sesImpl) : sesImpl :=
  mkSes (pool s) (responseq s) (subchan s) (hello s) (hellochan s)
    v (enc s) (sent s) (chunked s) (evtlog s)
    (next_chan s) (next_uuid s) (closed_r s) (closed_n s) (tasks s)
    (notified s).
(* the transport changing its behaviour, as when the connection breaks *)
Definition set_enc (v : Envelope -> option error) (s : sesImpl) : sesImpl :=
  mkSes (pool s) (responseq s) (subchan s) (hello s) (hellochan s)
    (hellochan_closed s) v (sent s) (chunked s) (evtlog s)
    (next_chan s) (next_uuid s) (closed_r s) (closed_n s) (tasks s)
    (notified s).
Definition set_sent (v : list Envelope) (s : sesImpl) : sesImpl :=
  mkSes (pool s) (responseq s) (subchan s) (hello s) (hellochan s)
    (hellochan_closed s) (enc s) v (chunked s) (evtlog s)
    (next_chan s) (next_uuid s) (closed_r s) (closed_n s) (tasks s)
    (notified s).
Definition set_chunked (v : bool) (s : sesImpl) : sesImpl :=
  mkSes (pool s) (responseq s) (subchan s) (hello s) (hellochan s)
    (hellochan_closed s) (enc s) (sent s) v (evtlog s)
    (next_chan s) (next_uuid s) (closed_r s) (closed_n s) (tasks s)
    (notified s).
Definition set_evtlog (v : list log_entry) (s : sesImpl) : sesImpl :=
  mkSes (pool s) (responseq s) (subchan s) (hello s) (hellochan s)
    (hellochan_closed s) (enc s) (sent s) (chunked s) v
    (next_chan s) (next_uuid s) (closed_r s) (closed_n s) (tasks s)
    (notified s).
Definition set_next_chan (v : nat) (s : sesImpl) : sesImpl :=
  mkSes (pool s) (responseq s) (subchan s) (hello s) (hellochan s)
    (hellochan_closed s) (enc s) (sent s) (chunked s) (evtlog s)
    v (next_uuid s) (closed_r s) (closed_n s) (tasks s)
    (notified s).
Definition set_next_uuid (v : nat) (s : sesImpl) : sesImpl :=
  mkSes (pool s) (responseq s) (subchan s) (hello s) (hellochan s)
    (hellochan_closed s) (enc s) (sent s) (chunked s) (evtlog s)
    (next_chan s) v (closed_r s) (closed_n s) (tasks s)
    (notified s).
Definition set_closed_r (v : gset nat) (s : sesImpl) : sesImpl :=
  mkSes (pool s) (responseq s) (subchan s) (hello s) (hellochan s)
    (hellochan_closed s) (enc s) (sent s) (chunked s) (evtlog s)
    (next_chan s) (next_uuid s) v (closed_n s) (tasks s)
    (notified s).
Definition set_closed_n (v : gset nat) (s : sesImpl) : sesImpl :=
  mkSes (pool s) (responseq s) (subchan s) (hello s) (hellochan s)
    (hellochan_closed s) (enc s) (sent s) (chunked s) (evtlog s)
    (next_chan s) (next_uuid s) (closed_r s) v (tasks s)
    (notified s).
Definition set_tasks (v : list (rchan * RPCReply)) (s : sesImpl) : sesImpl :=
  mkSes (pool s) (responseq s) (subchan s) (hello s) (hellochan s)
    (hellochan_closed s) (enc s) (sent s) (chunked s) (evtlog s)
    (next_chan s) (next_uuid s) (closed_r s) (closed_n s) v
    (notified s).
Definition set_notified (v : list (nat * Notification)) (s : sesImpl)
  : sesImpl :=
  mkSes (pool s) (responseq s) (subchan s) (hello s) (hellochan s)
    (hellochan_closed s) (enc s) (sent s) (chunked s) (evtlog s)
    (next_chan s) (next_uuid s) (closed_r s) (closed_n s) (tasks s) v.

(** Outcome of a stretch of code that may panic. *)
Inductive outcome (A : Type) :=
| Normal (a : A)
| Panic (s : sesImpl).
Arguments Normal {A} a.
Arguments Panic {A} s.

(** ** Go runtime primitives *)

(** [make(chan *RPCReply)]: a channel never seen before. *)
Definition make_rchan (s : sesImpl) : rchan * sesImpl :=
  (Some (next_chan s), set_next_chan (S (next_chan s)) s).

(** [close(ch)] on a reply channel: closing the nil channel or a closed
    channel panics. *)
Definition close_r (ch : rchan) (s : sesImpl) : outcome sesImpl :=
  match ch with
  | None => Panic s
  | Some c =>
      if decide (c ∈ closed_r s) then Panic s
      else Normal (set_closed_r ({[c]} ∪ closed_r s) s)
  end.

(** [close(ch)] on a notification channel. *)
Definition close_n (ch : nchan) (s : sesImpl) : outcome sesImpl :=
  match ch with
  | None => Panic s
  | Some c =>
      if decide (c ∈ closed_n s) then Panic s
      else Normal (set_closed_n ({[c]} ∪ closed_n s) s)
  end.

(** [close(si.hellochan)]. *)
Definition close_hello (s : sesImpl) : outcome sesImpl :=
  if hellochan_closed s then Panic s
  else Normal (set_hellochan_closed true s).

(** [uuid.NewV4().String()]. *)
Definition uuid_NewV4 (s : sesImpl) : nat * sesImpl :=
  (next_uuid s, set_next_uuid (S (next_uuid s)) s).

(** [si.enc.encode(msg)]: the envelope reaches the transport unless the
    encoder reports an error. *)
Definition encode (m : Envelope) (s : sesImpl) : option error * sesImpl :=
  match enc s m with
  | Some e => (Some e, s)
  | None => (None, set_sent (sent s ++ [m]) s)
  end.

(** ** Channel pool and correlation queue *)

Definition allocChan (s : sesImpl) : rchan * sesImpl :=
  match last (pool s) with
  | None => make_rchan s
  | Some ch => (ch, set_pool (removelast (pool s)) s)
  end.

Definition relChan (ch : rchan) (s : sesImpl) : sesImpl :=
  set_pool (pool s ++ [ch]) s.

Definition pushRespChan (ch : rchan) (s : sesImpl) : sesImpl :=
  set_responseq (responseq s ++ [ch]) s.

Definition popRespChan (s : sesImpl) : rchan * sesImpl :=
  match responseq s with
  | [] => (None, s)
  | ch :: q => (ch, set_responseq q s)
  end.

(** ** Submission *)

Definition ExecuteAsync (req : Request) (ch : rchan) (s : sesImpl)
  : option error * sesImpl :=
  let (id, s1) := uuid_NewV4 s in
  let msg := mkRPC id req in
  let s2 := pushRespChan ch s1 in
  encode (EnvRPC msg) s2.

(** ** Blocking receive on a reply channel

    A delivery goroutine blocked in [ch <- r] is an entry [(ch, r)] of
    [tasks].  A receive on channel [c] takes the value of the oldest
    task blocked on [c]; with no such task it yields the nil reply if
    [c] is closed and blocks otherwise.  A task on the nil channel is
    never matched: a send on a nil channel blocks forever.  A task on a
    closed channel is a goroutine that has panicked ([delivery_panics]
    below); the properties that speak of a receive keep to states
    without one. *)
Fixpoint take_task (c : nat) (ts : list (rchan * RPCReply))
  : option (RPCReply * list (rchan * RPCReply)) :=
  match ts with
  | [] => None
  | (ch, r) :: ts' =>
      if decide (ch = Some c) then Some (r, ts')
      else match take_task c ts' with
           | Some (r', rest) => Some (r', (ch, r) :: rest)
           | None => None
           end
  end.

(** [<-ch]: [None] when the receive blocks, otherwise the pointer
    received ([None] inside is the nil pointer read from a closed
    channel). *)
Definition recv (ch : rchan) (s : sesImpl)
  : option (option RPCReply * sesImpl) :=
  match ch with
  | None => None
  | Some c =>
      match take_task c (tasks s) with
      | Some (r, rest) => Some (Some r, set_tasks rest s)
      | None => if decide (c ∈ closed_r s) then Some (None, s) else None
      end
  end.

(** A call that may block in a receive: either it has returned, or the
    caller is parked on channel [ch] and goes on with the matching
    [_resume] function once the receive can complete. *)
Inductive call (A : Type) :=
| Done (a : A) (s : sesImpl)
| Waiting (ch : rchan) (s : sesImpl).
Arguments Done {A} a s.
Arguments Waiting {A} ch s.

(** [Execute], up to the receive.  The deferred [relChan] runs on every
    return. *)
Definition Execute (req : Request) (s : sesImpl)
  : call (option RPCReply * option error) :=
  let (rch, s1) := allocChan s in
  let (err, s2) := ExecuteAsync req rch s1 in
  match err with
  | Some e => Done (None, Some e) (relChan rch s2)
  | None => Waiting rch s2
  end.

(** [Execute], from the receive on. *)
Definition Execute_resume (rch : rchan) (s : sesImpl)
  : option ((option RPCReply * option error) * sesImpl) :=
  match recv rch s with
  | None => None
  | Some (reply, s1) => Some ((reply, None), relChan rch s1)
  end.

(** [Subscribe], up to the receive. *)
Definition Subscribe (req : Request) (nch : nchan) (s : sesImpl)
  : call (option RPCReply * option error) :=
  let (rch, s1) := allocChan s in
  let (err, s2) := ExecuteAsync req rch s1 in
  match err with
  | Some e => Done (None, Some e) (relChan rch s2)
  | None => Waiting rch (set_subchan nch s2)
  end.

(** [Subscribe], from the receive on. *)
Definition Subscribe_resume (rch : rchan) (s : sesImpl)
  : option ((option RPCReply * option error) * sesImpl) :=
  match recv rch s with
  | None => None
  | Some (reply, s1) => Some ((reply, None), relChan rch s1)
  end.

(** ** Teardown *)

(** The drain loop of [closeAllResponseChannels]: [popRespChan] yields
    nil both for an empty queue and for a nil entry at its head, and
    either ends the loop. *)
Fixpoint closeAll_loop (fuel : nat) (s : sesImpl)
  : option (outcome sesImpl) :=
  match fuel with
  | O => None
  | S fuel' =>
      let (ch, s1) := popRespChan s in
      match ch with
      | Some _ =>
          match close_r ch s1 with
          | Normal s2 => closeAll_loop fuel' s2
          | Panic s2 => Some (Panic s2)
          end
      | None => Some (Normal s1)
      end
  end.

(** [closeAllResponseChannels]: each pass that goes on has taken one
    entry off the queue, so one pass per entry and one more are enough
    ([closeAll_loop_terminates] below); [None] stands for a loop that
    has not finished. *)
Definition closeAllResponseChannels (s : sesImpl)
  : option (outcome sesImpl) :=
  closeAll_loop (S (length (responseq s))) s.

Definition closeChannels (s : sesImpl) : option (outcome sesImpl) :=
  match close_hello s with
  | Panic s' => Some (Panic s')
  | Normal s1 =>
      match subchan s1 with
      | Some _ =>
          match close_n (subchan s1) s1 with
          | Panic s' => Some (Panic s')
          | Normal s2 => closeAllResponseChannels s2
          end
      | None => closeAllResponseChannels s1
      end
  end.

(** [Close]: [res] is what closing the transport returns; an error is
    logged, not returned. *)
Definition Close (res : option error) (s : sesImpl) : sesImpl :=
  match res with
  | Some err => set_evtlog (evtlog s ++ [LogCloseFailed err]) s
  | None => s
  end.

(** ** Dispatch loop *)

(** What [DecodeElement] leaves in its target, per target type, and the
    error it returns. *)
Record Element := mkElement {
  dec_hello : HelloMessage;
  dec_reply : RPCReply;
  dec_notif : NotificationMessage;
  dec_err : option error
}.

(** One result of [si.dec.Token()]. *)
Inductive token :=
| TokenError (e : error)
| StartElement (n : Name) (el : Element)
| OtherToken.

Definition dquote : string := String (Ascii.ascii_of_nat 34) EmptyString.

(** [fmt.Sprintf] with the notification format: the event element
    rebuilt around its body. *)
Definition notification_body (ev : EventT) : string :=
  "<" +:+ Local (XMLName ev) +:+ " xmlns=" +:+ dquote +:+
  Space (XMLName ev) +:+ dquote +:+ ">" +:+ Event ev +:+
  "</" +:+ Local (XMLName ev) +:+ ">".

Definition log (e : log_entry) (s : sesImpl) : sesImpl :=
  set_evtlog (evtlog s ++ [e]) s.

(** One pass through the body of the [for] loop. *)
Inductive iter :=
| Continue (s : sesImpl)   (* next iteration *)
| Break (s : sesImpl)      (* break or return: the loop is left *)
| Crash (s : sesImpl)      (* panic inside the loop *)
| Stall (s : sesImpl).     (* blocked for good in a send *)

(** [si.hellochan <- &hello]: the only receive ever made on this
    channel is the one of [NewSession], so a second send never
    completes. *)
Definition send_hello (h : HelloMessage) (s : sesImpl) : iter :=
  if hellochan_closed s then Crash s
  else match hellochan s with
       | None => Continue (set_hellochan (Some h) s)
       | Some _ => Stall s
       end.

(** [si.subchan <- n] with a subscriber that takes what it is sent;
    sending on a closed channel panics. *)
Definition send_n (c : nat) (n : Notification) (s : sesImpl) : iter :=
  if decide (c ∈ closed_n s) then Crash s
  else Continue (set_notified (notified s ++ [(c, n)]) s).

(** [go func(ch, r) { ch <- r }(respch, &reply)]: the [go] statement
    starts the goroutine whatever the channel, and the loop goes on.
    What becomes of the goroutine's send is told by its entry in
    [tasks]: on an open channel it waits for a receiver, on the nil
    channel it waits for ever, and on a closed channel it panics
    ([delivery_panics] below). *)
Definition spawn_delivery (ch : rchan) (r : RPCReply) (s : sesImpl)
  : sesImpl :=
  set_tasks (tasks s ++ [(ch, r)]) s.

Definition handleInput_iter (t : token) (s : sesImpl) : iter :=
  match t with
  | TokenError e =>
      if decide (e = EOF) then Break s else Break (log (LogTokenError e) s)
  | StartElement n el =>
      if decide (n = nameHello) then
        match dec_err el with
        | Some e => Break (log (LogDecodeError e) s)
        | None => send_hello (dec_hello el) s
        end
      else if decide (n = nameRPCReply) then
        match dec_err el with
        | Some e => Break (log (LogDecodeError e) s)
        | None =>
            let (respch, s1) := popRespChan s in
            Continue (spawn_delivery respch (dec_reply el) s1)
        end
      else if decide (n = notification) then
        let result := dec_notif el in
        let n := notification_body (NEvent result) in
        match subchan s with
        | Some c =>
            send_n c (mkNotif (XMLName (NEvent result)) (EventTime result) n) s
        | None => Continue s
        end
      else Continue (log (LogUnexpected n) s)
  | OtherToken => Continue s
  end.

(** Where the dispatch goroutine stands after the tokens it was given. *)
Inductive loop_result :=
| Reading (s : sesImpl)    (* waiting in [Token()] for more input *)
| Exited (s : sesImpl)     (* returned, [closeChannels] done *)
| Panicked (s : sesImpl)   (* panicked, in the loop or in teardown *)
| Stalled (s : sesImpl)    (* blocked for good in a send *)
| Diverged.                (* teardown did not finish *)

(** The deferred [closeChannels] runs however the loop is left. *)
Definition leave (panicking : bool) (s : sesImpl) : loop_result :=
  match closeChannels s with
  | None => Diverged
  | Some (Panic s') => Panicked s'
  | Some (Normal s') => if panicking then Panicked s' else Exited s'
  end.

Fixpoint handleInput (ts : list token) (s : sesImpl) : loop_result :=
  match ts with
  | [] => Reading s
  | t :: ts' =>
      match handleInput_iter t s with
      | Continue s' => handleInput ts' s'
      | Break s' => leave false s'
      | Crash s' => leave true s'
      | Stall s' => Stalled s'
      end
  end.

(** A delivery goroutine has panicked: its send is on a channel that
    is closed.  Go panics on a send on a closed channel, and on the
    senders blocked on a channel when it is closed; nothing recovers
    the panic, so the program ends there and what the functions of this
    file say of such a state is of no account. *)
Definition delivery_panics (s : sesImpl) : Prop :=
  exists c r, (Some c, r) ∈ tasks s /\ c ∈ closed_r s.

(** ** Handshake *)

(** The session value built by [NewSession] before anything runs. *)
Definition new_sesImpl (encoder : Envelope -> option error) : sesImpl :=
  mkSes [] [] None None None false encoder [] false [] 0 0 ∅ ∅ [] [].

(** [<-sess.hellochan]: [None] when the receive blocks; the nil pointer
    when the channel was closed with nothing handed over. *)
Definition recv_hello (s : sesImpl) : option (option HelloMessage) :=
  match hellochan s with
  | Some h => Some (Some h)
  | None => if hellochan_closed s then Some None else None
  end.

(** The [for ... range] over the server capabilities: the reply
    capabilities and the chunked-framing flag. *)
Fixpoint negotiate (caps : list string) (resp : list string) (chunked : bool)
  : list string * bool :=
  match caps with
  | [] => (resp, chunked)
  | capability :: caps' =>
      if decide (capability = CapBase11) then ([CapBase11], true)
      else negotiate caps' resp chunked
  end.

Inductive newsession_result :=
| NSReturn (sess : option sesImpl) (err : option error)
| NSPanic (s : sesImpl)
| NSBlocked (s : sesImpl).

(** [NewSession] from the receive of the server hello on; [s] is the
    session as the dispatch goroutine has left it so far. *)
Definition NewSession_resume (s : sesImpl) : newsession_result :=
  match recv_hello s with
  | None => NSBlocked s
  | Some h =>
      let s1 := set_hello h s in
      match hello s1 with
      | None => NSPanic s1   (* sess.hello.Capabilities on a nil pointer *)
      | Some srv =>
          let (caps, chunkedFraming) :=
            negotiate (Capabilities srv) DefaultCapabilities false in
          let helloresp := mkHello caps in
          let (err, s2) := encode (EnvHello helloresp) s1 in
          match err with
          | Some e => NSReturn None (Some e)
          | None =>
              let s3 := if chunkedFraming then set_chunked true s2 else s2 in
              NSReturn (Some s3) None
          end
      end
  end.

(** [NewSession] over a transport whose read side delivers [ts] and
    whose encoder behaves as [encoder]: the dispatch goroutine is
    started first and has consumed [ts] when the receive is served. *)
Definition NewSession (ts : list token) (encoder : Envelope -> option error)
  : newsession_result :=
  match handleInput ts (new_sesImpl encoder) with
  | Reading s | Exited s | Stalled s => NewSession_resume s
  | Panicked s => NSPanic s
  | Diverged => NSBlocked (new_sesImpl encoder)
  end.

(** ** Runs of submissions and replies

    The submission lock makes [ExecuteAsync] one step with respect to
    other submitters, and the dispatch loop handles one envelope at a
    time; a run is any interleaving of the two.  A reply handled while
    a submitter is between its enqueue and its write is placed before
    that submission ([popRespChan_pushRespChan] below). *)
Inductive event :=
| EvSubmit (req : Request) (ch : rchan)
| EvReply (r : RPCReply).

Definition zeroNotificationMessage : NotificationMessage :=
  mkNotifMsg EmptyString (mkEvent (mkName EmptyString EmptyString) EmptyString).

(** The token of a well-formed rpc-reply envelope decoding to [r]. *)
Definition rpc_reply_token (r : RPCReply) : token :=
  StartElement nameRPCReply
    (mkElement (mkHello []) r zeroNotificationMessage None).

(** One event: a submission that is written, or a reply that the
    dispatch loop decodes and goes on from. *)
Definition run_event (ev : event) (s : sesImpl) : option sesImpl :=
  match ev with
  | EvSubmit req ch =>
      match ExecuteAsync req ch s with
      | (None, s') => Some s'
      | (Some _, _) => None
      end
  | EvReply r =>
      match handleInput_iter (rpc_reply_token r) s with
      | Continue s' => Some s'
      | _ => None
      end
  end.

Fixpoint run (evs : list event) (s : sesImpl) : option sesImpl :=
  match evs with
  | [] => Some s
  | ev :: evs' =>
      match run_event ev s with
      | Some s' => run evs' s'
      | None => None
      end
  end.

(** Channels submitted and replies decoded, in the order of the run. *)
Fixpoint submitted (evs : list event) : list rchan :=
  match evs with
  | [] => []
  | EvSubmit _ ch :: evs' => ch :: submitted evs'
  | EvReply _ :: evs' => submitted evs'
  end.

Fixpoint replies (evs : list event) : list RPCReply :=
  match evs with
  | [] => []
  | EvSubmit _ _ :: evs' => replies evs'
  | EvReply r :: evs' => r :: replies evs'
  end.

(** The peer answers requests it has been sent: with [pending] requests
    outstanding, no reply comes before its request. *)
Fixpoint answers_only (pending : nat) (evs : list event) : bool :=
  match evs with
  | [] => true
  | EvSubmit _ _ :: evs' => answers_only (S pending) evs'
  | EvReply _ :: evs' =>
      match pending with
      | O => false
      | S p => answers_only p evs'
      end
  end.

(** ** Scenarios and auxiliary predicates *)

(** An encoder that writes every envelope. *)
Definition always_ok : Envelope -> option error := fun _ => None.

(** The token of a well-formed hello envelope listing [caps]. *)
Definition hello_token (caps : list string) : token :=
  StartElement nameHello
    (mkElement (mkHello caps) (mkReply EmptyString)
       zeroNotificationMessage None).

(** A session that has completed the handshake with a base:1.0 server
    and has the dispatch loop waiting for input. *)
Definition negotiated (encoder : Envelope -> option error) : sesImpl :=
  match NewSession [hello_token [CapBase10]] encoder with
  | NSReturn (Some s) _ => s
  | _ => new_sesImpl encoder
  end.

(** An encoder that fails on every envelope. *)
Definition always_fails : Envelope -> option error :=
  fun _ => Some (Err "broken pipe").

(** A negotiated session whose transport no longer accepts writes. *)
Definition broken_session : sesImpl :=
  set_enc always_fails (negotiated always_ok).

(** The negotiated session after a caller has entered [Execute], has
    been parked on the fresh channel 0, and the transport has ended:
    teardown has run. *)
Definition parked_then_closed : sesImpl :=
  match Execute "<get/>" (negotiated always_ok) with
  | Waiting _ s1 =>
      match handleInput [TokenError EOF] s1 with
      | Exited s2 => s2
      | _ => s1
      end
  | Done _ s1 => s1
  end.


(** A reply channel that [close] accepts: not nil and not yet closed. *)
Definition open_chan (s : sesImpl) (ch : rchan) : Prop :=
  match ch with
  | Some c => c ∉ closed_r s
  | None => False
  end.

#[global] Instance open_chan_dec s ch : Decision (open_chan s ch).
Proof. destruct ch; simpl; apply _. Defined.

(** Teardown meets only channels it may close: the handshake channel
    and the subscriber channel are open, and the queue holds open,
    non-nil channels, each once. *)
Definition teardown_ready (s : sesImpl) : Prop :=
  hellochan_closed s = false /\
  match subchan s with Some c => c ∉ closed_n s | None => True end /\
  NoDup (responseq s) /\
  Forall (open_chan s) (responseq s).

#[global] Instance teardown_ready_dec s : Decision (teardown_ready s).
Proof. unfold teardown_ready. destruct (subchan s); apply _. Defined.

(** The state reached from [s] by a run, or [s] itself if the run does
    not go through. *)
Definition after (evs : list event) (s : sesImpl) : sesImpl :=
  match run evs s with
  | Some s' => s'
  | None => s
  end.

(** A negotiated session with two requests outstanding, on channels 3
    and 5, and subscriber channel 1 registered. *)
Definition two_pending : sesImpl :=
  set_subchan (Some 1)
    (after [EvSubmit "<get/>" (Some 3); EvSubmit "<lock/>" (Some 5)]
       (negotiated always_ok)).

(** The session after the dispatch loop has handed over a server hello
    with capabilities [caps]. *)
Definition greeted (caps : list string) : sesImpl :=
  match handleInput [hello_token caps] (new_sesImpl always_ok) with
  | Reading s => s
  | _ => new_sesImpl always_ok
  end.

(** The notification handed to the subscriber for a decoded envelope:
    element name and timestamp as decoded, the body rebuilt as the
    event element around the event's inner text. *)
Definition reshape (result : NotificationMessage) : Notification :=
  mkNotif (XMLName (NEvent result)) (EventTime result)
    (notification_body (NEvent result)).

(** A notification element carrying an alarm event, with the error
    [DecodeElement] returns on it. *)
Definition alarm_element (err : option error) : Element :=
  mkElement (mkHello []) (mkReply EmptyString)
    (mkNotifMsg "2019-01-01T00:00:00Z"
       (mkEvent (mkName "urn:ex" "alarm") "<sev>3</sev>"))
    err.

(** ** Further scenarios: pools, payloads and tokens *)

(** [n] calls of [allocChan] in a row, with the channels handed out. *)
Fixpoint allocChans (n : nat) (s : sesImpl) : list rchan * sesImpl :=
  match n with
  | O => ([], s)
  | S n' =>
      let (ch, s1) := allocChan s in
      let (chs, s2) := allocChans n' s1 in
      (ch :: chs, s2)
  end.

(** [relChan] on each channel of [chs], first to last. *)
Definition relChans (chs : list rchan) (s : sesImpl) : sesImpl :=
  foldl (fun st ch => relChan ch st) s chs.

(** Request payloads submitted in a run, in the order of the run. *)
Fixpoint requests (evs : list event) : list Request :=
  match evs with
  | [] => []
  | EvSubmit req _ :: evs' => req :: requests evs'
  | EvReply _ :: evs' => requests evs'
  end.

(** The payload of an rpc envelope; a hello envelope has none. *)
Definition rpc_payload (m : Envelope) : option string :=
  match m with
  | EnvRPC msg => Some (Methods msg)
  | EnvHello _ => None
  end.

(** A token the dispatch loop passes over: not a start element, or a
    start element whose name is none of the three envelope names. *)
Definition ignorable (t : token) : Prop :=
  match t with
  | OtherToken => True
  | StartElement n _ =>
      n <> nameHello /\ n <> nameRPCReply /\ n <> notification
  | TokenError _ => False
  end.

#[global] Instance ignorable_dec t : Decision (ignorable t).
Proof. destruct t; simpl; apply _. Defined.

(** A token that neither carries a hello nor ends the loop of a session
    without subscriber: anything but a token error, a hello, or an
    rpc-reply that fails to decode. *)
Definition before_hello (t : token) : Prop :=
  match t with
  | OtherToken => True
  | StartElement n el =>
      n <> nameHello /\ (n = nameRPCReply -> dec_err el = None)
  | TokenError _ => False
  end.

#[global] Instance before_hello_dec t : Decision (before_hello t).
Proof. destruct t; simpl; apply _. Defined.

(** A negotiated session with subscriber 1 registered, on which
    [Subscribe] has just registered subscriber 2 in its place. *)
Definition resubscribed : sesImpl :=
  match Subscribe "<create-subscription/>" (Some 2)
          (set_subchan (Some 1) (negotiated always_ok)) with
  | Waiting _ s1 => s1
  | Done _ s1 => s1
  end.

(** * Properties *)

(** Settles the [switch token.Name] of [handleInput_iter] when the
    name is one of the three envelope names. *)
Ltac switch_name :=
  unfold handleInput_iter;
  repeat match goal with
         | |- context [decide (?a = ?b)] =>
             destruct (decide (a = b)) as [?E | ?N];
             [try discriminate | try done]
         end.

(** ** Pool and queue *)

Lemma ExecuteAsync_ok req ch s :
  enc s (EnvRPC (mkRPC (next_uuid s) req)) = None ->
  ExecuteAsync req ch s =
    (None,
     set_sent (sent s ++ [EnvRPC (mkRPC (next_uuid s) req)])
       (pushRespChan ch (set_next_uuid (S (next_uuid s)) s))).
Proof. intros H. unfold ExecuteAsync, encode. simpl. by rewrite H. Qed.

Lemma ExecuteAsync_err req ch s e :
  enc s (EnvRPC (mkRPC (next_uuid s) req)) = Some e ->
  ExecuteAsync req ch s =
    (Some e, pushRespChan ch (set_next_uuid (S (next_uuid s)) s)).
Proof. intros H. unfold ExecuteAsync, encode. simpl. by rewrite H. Qed.

(** With a request outstanding, taking the head of the queue and
    appending to its tail commute: a reply handled while a submitter
    is between its enqueue and its write finds the same channel as if
    it had been handled just before the enqueue. *)
Lemma popRespChan_pushRespChan ch s :
  responseq s <> [] ->
  popRespChan (pushRespChan ch s) =
    (fst (popRespChan s), pushRespChan ch (snd (popRespChan s))).
Proof.
  intros Hq. unfold popRespChan, pushRespChan.
  by destruct (responseq s) as [|c q] eqn:E.
Qed.

Lemma reply_iter r s :
  handleInput_iter (rpc_reply_token r) s =
    Continue (spawn_delivery (fst (popRespChan s)) r (snd (popRespChan s))).
Proof.
  unfold rpc_reply_token. switch_name.
  simpl. by destruct (popRespChan s).
Qed.

(** Generalisation of the correlation property to a session with
    requests already outstanding. *)
Lemma run_correlates evs : forall s,
  (forall m, enc s m = None) ->
  answers_only (length (responseq s)) evs = true ->
  exists s',
    run evs s = Some s' /\
    tasks s' =
      tasks s ++
      zip (take (length (replies evs)) (responseq s ++ submitted evs))
          (replies evs) /\
    responseq s' =
      drop (length (replies evs)) (responseq s ++ submitted evs).
Proof.
  induction evs as [|[req ch|r] evs IH]; intros s Henc Hans;
    cbn [run run_event replies submitted answers_only length] in *.
  - exists s. simpl. by rewrite !app_nil_r.
  - rewrite (ExecuteAsync_ok req ch s (Henc _)).
    set (s1 := set_sent _ _).
    destruct (IH s1) as (s' & Hrun & Ht & Hq).
    + intros m. apply Henc.
    + subst s1. simpl. rewrite length_app. simpl.
      by rewrite Nat.add_1_r.
    + exists s'. split; [done|]. subst s1. simpl in *.
      rewrite <- !app_assoc in Ht, Hq. done.
  - rewrite reply_iter. unfold popRespChan.
    destruct (responseq s) as [|c q] eqn:Eq; [done|]. simpl in Hans.
    cbn [fst snd].
    set (s1 := spawn_delivery _ _ _).
    destruct (IH s1) as (s' & Hrun & Ht & Hq).
    + intros m. apply Henc.
    + done.
    + exists s'. split; [done|]. subst s1. simpl in *.
      rewrite <- app_assoc in Ht. done.
Qed.

(** The oldest task blocked on a channel that occurs once among the
    targets is the one at that channel's position. *)
Lemma take_task_zip (chs : list rchan) : forall (rs : list RPCReply) i c r,
  NoDup chs ->
  chs !! i = Some (Some c) ->
  rs !! i = Some r ->
  exists rest, take_task c (zip chs rs) = Some (r, rest).
Proof.
  induction chs as [|ch chs IH]; intros rs i c r Hnd Hc Hr; [done|].
  destruct rs as [|r0 rs]; [done|]. simpl.
  apply NoDup_cons in Hnd as [Hnotin Hnd].
  destruct i as [|i]; simpl in *.
  - simplify_eq. rewrite decide_True by done. eauto.
  - rewrite decide_False.
    + destruct (IH rs i c r Hnd Hc Hr) as [rest ->]. eauto.
    + intros ->. apply Hnotin. by eapply list_elem_of_lookup_2.
Qed.

(** ** The handshake on well-behaved peers *)

Example NewSession_base10 :
  exists s,
    NewSession [hello_token [CapBase10]] always_ok = NSReturn (Some s) None /\
    hello s = Some (mkHello [CapBase10]) /\
    sent s = [EnvHello (mkHello [CapBase10])] /\
    chunked s = false.
Proof. eexists. split; [vm_compute; reflexivity|]. done. Qed.

Example NewSession_base11 :
  exists s,
    NewSession [hello_token [CapBase10; CapBase11]] always_ok =
      NSReturn (Some s) None /\
    sent s = [EnvHello (mkHello [CapBase11])] /\
    chunked s = true.
Proof. eexists. split; [vm_compute; reflexivity|]. done. Qed.

(** A round trip: the reply to the one outstanding request is what
    [Execute] returns, and the channel goes back to the pool. *)
Example Execute_round_trip :
  exists s1 s2 s3,
    Execute "<get-config/>" (negotiated always_ok) = Waiting (Some 0) s1 /\
    handleInput [rpc_reply_token (mkReply "<data/>")] s1 = Reading s2 /\
    Execute_resume (Some 0) s2 =
      Some ((Some (mkReply "<data/>"), None), s3) /\
    pool s3 = [Some 0] /\
    responseq s3 = [].
Proof.
  eexists _, _, _. split; [vm_compute; reflexivity|].
  split; [vm_compute; reflexivity|]. split; [vm_compute; reflexivity|]. done.
Qed.

(** ** Positional correlation *)

(** A run closes no channel. *)
Lemma run_closed_r (evs : list event) : forall s s',
  run evs s = Some s' -> closed_r s' = closed_r s.
Proof.
  induction evs as [|[req ch|r] evs IH]; intros s s' Hrun;
    cbn [run run_event] in Hrun.
  - by simplify_eq.
  - destruct (enc s (EnvRPC (mkRPC (next_uuid s) req))) as [e|] eqn:Henc.
    + by rewrite (ExecuteAsync_err req ch s e Henc) in Hrun.
    + rewrite (ExecuteAsync_ok req ch s Henc) in Hrun.
      by rewrite (IH _ _ Hrun).
  - rewrite reply_iter in Hrun. rewrite (IH _ _ Hrun).
    unfold spawn_delivery, popRespChan. by destruct (responseq s).
Qed.

(** C1.  Take any run of [ExecuteAsync] submissions and decoded
    rpc-replies on a session with nothing outstanding, in which every
    request is written, no reply comes before its request, and the
    channels submitted are not closed.  Then the delivery tasks pair the
    i-th submitted channel with the i-th reply, no delivery panics, the
    queue holds the channels still unanswered, and when the submitted
    channels are distinct a receive on the i-th channel yields the i-th
    reply.  Only positions are used: the message identifiers play no
    part. *)
Theorem fifo_correlation (evs : list event) (s : sesImpl) :
  (forall m, enc s m = None) ->
  responseq s = [] ->
  tasks s = [] ->
  answers_only 0 evs = true ->
  (forall c, Some c ∈ submitted evs -> c ∉ closed_r s) ->
  exists s',
    run evs s = Some s' /\
    tasks s' = zip (submitted evs) (replies evs) /\
    responseq s' = drop (length (replies evs)) (submitted evs) /\
    closed_r s' = closed_r s /\
    ~ delivery_panics s' /\
    (NoDup (submitted evs) ->
     forall i c r,
       submitted evs !! i = Some (Some c) ->
       replies evs !! i = Some r ->
       exists s'', recv (Some c) s' = Some (Some r, s'')).
Proof.
  intros Henc Hq Ht Hans Hopen.
  destruct (run_correlates evs s Henc) as (s' & Hrun & Ht' & Hq').
  - by rewrite Hq.
  - rewrite Hq, Ht in *. simpl in *.
    assert (Hz : tasks s' = zip (submitted evs) (replies evs)).
    { rewrite Ht'. clear. generalize (submitted evs).
      induction (replies evs) as [|r rs IH]; intros [|c cs]; simpl; try done.
      by rewrite IH. }
    pose proof (run_closed_r evs s s' Hrun) as Hcl.
    exists s'. split; [done|]. split; [done|]. split; [done|].
    split; [done|]. split.
    + intros (c & r & Hin & Hc). rewrite Hz in Hin. rewrite Hcl in Hc.
      apply (Hopen c); [|done]. by eapply elem_of_zip_l.
    + intros Hnd i c r Hc Hr. unfold recv. rewrite Hz.
      destruct (take_task_zip _ _ i c r Hnd Hc Hr) as [rest ->]. eauto.
Qed.

Lemma fifo_correlation_witness :
  exists s',
    run [EvSubmit "<get/>" (Some 7); EvSubmit "<lock/>" (Some 9);
         EvReply (mkReply "a"); EvSubmit "<unlock/>" (Some 4);
         EvReply (mkReply "b"); EvReply (mkReply "c")]
        (new_sesImpl always_ok) = Some s' /\
    tasks s' = [(Some 7, mkReply "a"); (Some 9, mkReply "b");
                (Some 4, mkReply "c")] /\
    responseq s' = [] /\
    closed_r s' = closed_r (new_sesImpl always_ok) /\
    ~ delivery_panics s' /\
    (NoDup [Some 7; Some 9; Some 4] ->
     forall i c r,
       [Some 7; Some 9; Some 4] !! i = Some (Some c) ->
       [mkReply "a"; mkReply "b"; mkReply "c"] !! i = Some r ->
       exists s'', recv (Some c) s' = Some (Some r, s'')).
Proof.
  apply (fifo_correlation
           [EvSubmit "<get/>" (Some 7); EvSubmit "<lock/>" (Some 9);
            EvReply (mkReply "a"); EvSubmit "<unlock/>" (Some 4);
            EvReply (mkReply "b"); EvReply (mkReply "c")]
           (new_sesImpl always_ok)); try reflexivity.
  intros c _. simpl. apply not_elem_of_empty.
Defined.

(** A channel that is closed when its reply arrives gets no reply: the
    delivery goroutine panics. *)
Lemma delivery_to_closed_channel_panics (r : RPCReply) (c : nat)
  (q : list rchan) (s : sesImpl) :
  responseq s = Some c :: q ->
  c ∈ closed_r s ->
  exists s',
    handleInput_iter (rpc_reply_token r) s = Continue s' /\
    delivery_panics s'.
Proof.
  intros Hq Hc. rewrite reply_iter. unfold popRespChan. rewrite Hq.
  eexists. split; [reflexivity|]. exists c, r. split; [|done].
  unfold spawn_delivery. simpl. apply elem_of_app. right.
  by apply list_elem_of_singleton.
Qed.

(** ** Execute on a closed channel *)

(** C2, as the code has it.  When the channel a caller of [Execute] is
    parked on is closed with no reply pending on it, the call returns
    the nil reply together with a nil error. *)
Theorem Execute_closed_returns_nil (c : nat) (s : sesImpl) :
  c ∈ closed_r s ->
  take_task c (tasks s) = None ->
  Execute_resume (Some c) s = Some ((None, None), relChan (Some c) s).
Proof.
  intros Hc Ht. unfold Execute_resume, recv. rewrite Ht.
  by rewrite decide_True.
Qed.

Lemma Execute_closed_returns_nil_witness :
  0 ∈ closed_r parked_then_closed /\
  take_task 0 (tasks parked_then_closed) = None /\
  Execute_resume (Some 0) parked_then_closed =
    Some ((None, None), relChan (Some 0) parked_then_closed).
Proof.
  assert (H0 : 0 ∈ closed_r parked_then_closed).
  { apply (bool_decide_unpack _). vm_compute. exact I. }
  split; [exact H0|]. split; [vm_compute; reflexivity|].
  apply (Execute_closed_returns_nil 0 _ H0). vm_compute. reflexivity.
Defined.

(** C2 fails as stated: on a negotiated session, a caller enters
    [Execute], the transport ends, teardown closes the caller's channel,
    and [Execute] returns with no reply and no error. *)
Lemma Execute_closed_no_error :
  exists s1 s2 s3,
    Execute "<get/>" (negotiated always_ok) = Waiting (Some 0) s1 /\
    handleInput [TokenError EOF] s1 = Exited s2 /\
    (0 ∈ closed_r s2) /\
    Execute_resume (Some 0) s2 = Some ((None, None), s3).
Proof.
  eexists _, _, _. split; [vm_compute; reflexivity|].
  split; [vm_compute; reflexivity|].
  split; [|vm_compute; reflexivity].
  apply (bool_decide_unpack _). vm_compute. exact I.
Qed.

(** ** Pool reuse after a failed submission *)

Lemma allocChan_relChan ch s :
  allocChan (relChan ch s) = (ch, set_pool (pool s) (relChan ch s)).
Proof.
  unfold allocChan, relChan. simpl.
  by rewrite last_snoc, removelast_last.
Qed.

(** C3, the failing path.  When the encode step of [Execute] fails, the
    deferred [relChan] puts the channel back in the pool although
    [ExecuteAsync] has left it on the correlation queue: the very next
    [allocChan] hands out a channel that is still queued, that nothing
    has been received from, and that has not been closed. *)
Theorem Execute_encode_error_recycles_queued_channel
  (req : Request) (e : error) (s : sesImpl) :
  enc s (EnvRPC (mkRPC (next_uuid s) req)) = Some e ->
  exists rch s1 s2,
    Execute req s = Done (None, Some e) s1 /\
    rch = fst (allocChan s) /\
    allocChan s1 = (rch, s2) /\
    rch ∈ responseq s2 /\
    closed_r s2 = closed_r s /\
    tasks s2 = tasks s.
Proof.
  intros Henc. unfold Execute.
  destruct (allocChan s) as [rch s0] eqn:Ea.
  assert (Hs0 : enc s0 = enc s /\ next_uuid s0 = next_uuid s /\
                closed_r s0 = closed_r s /\ tasks s0 = tasks s).
  { unfold allocChan, make_rchan in Ea.
    destruct (last (pool s)); simplify_eq; done. }
  destruct Hs0 as (He & Hu & Hc & Ht).
  rewrite (ExecuteAsync_err req rch s0 e) by (by rewrite He, Hu).
  eexists rch, _, _. split; [reflexivity|]. split; [done|].
  split; [apply allocChan_relChan|]. simpl.
  split; [|done]. apply elem_of_app. right. by apply list_elem_of_singleton.
Qed.

Lemma Execute_encode_error_recycles_queued_channel_witness :
  exists rch s1 s2,
    Execute "<get/>" broken_session =
      Done (None, Some (Err "broken pipe")) s1 /\
    rch = fst (allocChan broken_session) /\
    allocChan s1 = (rch, s2) /\
    rch ∈ responseq s2 /\
    closed_r s2 = closed_r broken_session /\
    tasks s2 = tasks broken_session.
Proof.
  apply (Execute_encode_error_recycles_queued_channel "<get/>"
           (Err "broken pipe")).
  reflexivity.
Defined.

(** ** Handshake failures *)

(** The encode-error path of the handshake: no session is returned. *)
Lemma NewSession_encode_error (s : sesImpl) (srv : HelloMessage) (e : error) :
  hellochan s = Some srv ->
  (forall m, enc s m = Some e) ->
  NewSession_resume s = NSReturn None (Some e).
Proof.
  intros Hh Henc. unfold NewSession_resume, recv_hello. rewrite Hh. simpl.
  destruct (negotiate _ _ _) as [caps ch]. unfold encode. simpl.
  by rewrite Henc.
Qed.

(** C4, the failing path.  When the token stream ends (orderly or not)
    before any hello has been decoded, teardown closes the handshake
    channel, [NewSession] reads the nil pointer from it and panics on
    [sess.hello.Capabilities]; it does not return an error. *)
Theorem NewSession_closed_before_hello_panics
  (encoder : Envelope -> option error) (e : error) :
  exists s, NewSession [TokenError e] encoder = NSPanic s /\ hello s = None.
Proof.
  destruct e; eexists; split; reflexivity.
Qed.

(** ** Teardown *)

Lemma closeAll_loop_drains (q : list rchan) : forall fuel s,
  responseq s = q ->
  length q < fuel ->
  NoDup q ->
  Forall (open_chan s) q ->
  exists s',
    closeAll_loop fuel s = Some (Normal s') /\
    responseq s' = [] /\
    (forall c, c ∈ closed_r s' <-> Some c ∈ q \/ c ∈ closed_r s) /\
    hellochan_closed s' = hellochan_closed s /\
    closed_n s' = closed_n s /\
    subchan s' = subchan s /\
    tasks s' = tasks s.
Proof.
  induction q as [|ch q IH]; intros fuel s Hq Hfuel Hnd Hopen;
    (destruct fuel as [|fuel]; [simpl in Hfuel; lia|]);
    simpl; unfold popRespChan; rewrite Hq.
  - exists s. repeat split; try done.
    + intros H. by right.
    + intros [H|H]; [|done]. by apply elem_of_nil in H.
  - apply NoDup_cons in Hnd as [Hnotin Hnd].
    apply Forall_cons in Hopen as [Hch Hopen].
    destruct ch as [c|]; [|done]. simpl in Hch.
    unfold close_r. simpl. rewrite decide_False by done.
    set (s1 := set_closed_r _ _).
    destruct (IH fuel s1) as (s' & Hrun & Hq' & Hcl & Hh & Hn & Hs & Ht).
    + done.
    + simpl in Hfuel. lia.
    + done.
    + apply Forall_forall. intros [d|] Hd.
      * rewrite Forall_forall in Hopen. specialize (Hopen _ Hd).
        simpl in *. intros [->%elem_of_singleton|H]%elem_of_union; done.
      * rewrite Forall_forall in Hopen. by specialize (Hopen _ Hd).
    + exists s'. split; [done|]. split; [done|]. split; [|done].
      intros d. rewrite Hcl. subst s1. simpl.
      rewrite elem_of_union, elem_of_singleton, elem_of_cons.
      split; [intros [H|[->|H]]|intros [[[= ->]|H]|H]]; auto.
Qed.


(** Teardown always finishes: the drain loop needs at most one pass per
    queue entry and one more. *)
Lemma closeAll_loop_terminates : forall fuel s,
  length (responseq s) < fuel -> is_Some (closeAll_loop fuel s).
Proof.
  induction fuel as [|fuel IH]; intros s Hlen; [lia|].
  simpl. unfold popRespChan.
  destruct (responseq s) as [|[c|] q] eqn:Eq; simpl; [done| |done].
  unfold close_r. simpl. destruct (decide _); [done|].
  apply IH. simpl in *. lia.
Qed.

Lemma closeChannels_terminates s : is_Some (closeChannels s).
Proof.
  unfold closeChannels, close_hello, closeAllResponseChannels.
  destruct (hellochan_closed s); [done|]. cbn -[closeAll_loop].
  destruct (subchan s) as [n|] eqn:En.
  - unfold close_n. cbn -[closeAll_loop]. destruct (decide _); [done|].
    apply closeAll_loop_terminates. simpl. lia.
  - apply closeAll_loop_terminates. simpl. lia.
Qed.

(** The dispatch loop never hangs in teardown. *)
Lemma handleInput_never_diverges (ts : list token) : forall s,
  handleInput ts s <> Diverged.
Proof.
  assert (Hleave : forall b s, leave b s <> Diverged).
  { intros b s. unfold leave.
    destruct (closeChannels_terminates s) as [[s'|s'] ->]; [|done].
    by destruct b. }
  induction ts as [|t ts IH]; intros s; cbn [handleInput]; [done|].
  destruct (handleInput_iter t s); auto.
Qed.




(** A panic inside the loop comes from a send on a closed channel, and
    the deferred teardown then panics in its turn on the [close] of
    that channel. *)
Lemma crash_not_ready (t : token) (s s1 : sesImpl) :
  handleInput_iter t s = Crash s1 ->
  s1 = s /\
  (hellochan_closed s = true \/
   exists c, subchan s = Some c /\ c ∈ closed_n s).
Proof.
  destruct t as [e|n el|]; simpl; [by destruct (decide _)| |done].
  destruct (decide (n = nameHello)).
  - destruct (dec_err el); [done|]. unfold send_hello.
    destruct (hellochan_closed s) eqn:Hc; [|by destruct (hellochan s)].
    intros [= <-]. auto.
  - destruct (decide (n = nameRPCReply)).
    + destruct (dec_err el); [done|]. by destruct (popRespChan s).
    + destruct (decide (n = notification)); [|done].
      destruct (subchan s) as [c|] eqn:Hs; [|done]. unfold send_n.
      destruct (decide (c ∈ closed_n s)); [|done].
      intros [= <-]. eauto.
Qed.

(** X18.  When the dispatch loop panics in a send (on a subscriber
    channel that has been closed), the deferred teardown panics too,
    on closing that same channel, before it reaches the correlation
    queue: no pending delivery channel is closed and the queue is left
    as it was. *)
Theorem panic_exit_skips_the_drain
  (t : token) (ts : list token) (s s1 : sesImpl) :
  handleInput_iter t s = Crash s1 ->
  exists s',
    handleInput (t :: ts) s = Panicked s' /\
    responseq s' = responseq s /\
    closed_r s' = closed_r s.
Proof.
  intros Hcrash. cbn [handleInput]. rewrite Hcrash.
  destruct (crash_not_ready t s s1 Hcrash) as (-> & Hwhy).
  unfold leave, closeChannels, close_hello.
  destruct (hellochan_closed s) eqn:Hh; [by exists s|]. simpl.
  destruct Hwhy as [?|(c & Hsub & Hc)]; [done|].
  rewrite Hsub. unfold close_n. simpl. rewrite decide_True by done.
  by eexists.
Qed.

Lemma panic_exit_skips_the_drain_witness :
  exists s',
    handleInput
      [StartElement notification (alarm_element None);
       rpc_reply_token (mkReply "a")]
      (set_closed_n {[1]} two_pending) = Panicked s' /\
    responseq s' = responseq (set_closed_n {[1]} two_pending) /\
    closed_r s' = closed_r (set_closed_n {[1]} two_pending).
Proof.
  apply (panic_exit_skips_the_drain
           (StartElement notification (alarm_element None))
           [rpc_reply_token (mkReply "a")]
           (set_closed_n {[1]} two_pending)
           (set_closed_n {[1]} two_pending)).
  vm_compute. reflexivity.
Defined.

(** C5, the failing path.  The drain loop takes a nil entry for the end
    of the queue.  After [ExecuteAsync] with a nil channel and then with
    channel 5, the transport ends and teardown stops at the nil entry:
    channel 5 is left on the queue, open, and a receive on it stays
    blocked. *)
Lemma teardown_stops_at_nil_channel :
  exists s',
    handleInput [TokenError EOF]
      (after [EvSubmit "<get/>" None; EvSubmit "<lock/>" (Some 5)]
         (negotiated always_ok)) = Exited s' /\
    responseq s' = [Some 5] /\
    (5 ∉ closed_r s') /\
    recv (Some 5) s' = None.
Proof.
  eexists. split; [vm_compute; reflexivity|].
  split; [reflexivity|]. split; [|reflexivity].
  apply (bool_decide_unpack _). vm_compute. exact I.
Qed.

(** The failing path of C3 carried to teardown: after two calls of
    [Execute] whose encode step fails, the recycled channel is on the
    queue twice and the second [close] panics. *)
Lemma teardown_after_failed_submissions_panics :
  exists s1 s2 s3,
    Execute "<get/>" broken_session =
      Done (None, Some (Err "broken pipe")) s1 /\
    Execute "<get/>" s1 = Done (None, Some (Err "broken pipe")) s2 /\
    responseq s2 = [Some 0; Some 0] /\
    handleInput [TokenError EOF] s2 = Panicked s3.
Proof.
  eexists _, _, _. split; [vm_compute; reflexivity|].
  split; [vm_compute; reflexivity|].
  split; [reflexivity|]. vm_compute. reflexivity.
Qed.

(** ** Capability negotiation *)

Lemma negotiate_spec (caps resp : list string) (b : bool) :
  negotiate caps resp b =
    if decide (CapBase11 ∈ caps) then ([CapBase11], true) else (resp, b).
Proof.
  induction caps as [|c caps IH]; cbn [negotiate].
  - rewrite decide_False; [done|]. apply not_elem_of_nil.
  - destruct (decide (c = CapBase11)) as [->|Hc].
    + rewrite decide_True; [done|]. apply elem_of_cons. by left.
    + rewrite IH. destruct (decide (CapBase11 ∈ caps)) as [Hin|Hnin].
      * rewrite decide_True; [done|]. apply elem_of_cons. by right.
      * rewrite decide_False; [done|].
        intros [E|Hin]%elem_of_cons; [by apply Hc|by apply Hnin].
Qed.

(** C6.  Let the server hello [srv] have been handed to [NewSession]
    and let the reply hello be written.  If [srv] lists base:1.1, the
    reply written is the hello with the single capability base:1.1 and
    the codec is switched to chunked framing; otherwise the reply is
    the hello with the default capabilities, which are base:1.0 alone,
    and the framing mode is the one it was. *)
Theorem NewSession_negotiates (s : sesImpl) (srv : HelloMessage) :
  hellochan s = Some srv ->
  (forall m, enc s m = None) ->
  DefaultCapabilities = [CapBase10] /\
  (CapBase11 ∈ Capabilities srv ->
   exists s',
     NewSession_resume s = NSReturn (Some s') None /\
     sent s' = sent s ++ [EnvHello (mkHello [CapBase11])] /\
     chunked s' = true) /\
  (CapBase11 ∉ Capabilities srv ->
   exists s',
     NewSession_resume s = NSReturn (Some s') None /\
     sent s' = sent s ++ [EnvHello (mkHello DefaultCapabilities)] /\
     chunked s' = chunked s).
Proof.
  intros Hh Henc. split; [done|].
  unfold NewSession_resume, recv_hello. rewrite Hh. cbn [hello set_hello].
  rewrite negotiate_spec. split; intros Hcap.
  - rewrite decide_True by done. unfold encode. cbn [enc set_hello].
    rewrite Henc. eexists. split; [reflexivity|]. done.
  - rewrite decide_False by done. unfold encode. cbn [enc set_hello].
    rewrite Henc. eexists. split; [reflexivity|]. done.
Qed.

Lemma NewSession_negotiates_witness :
  DefaultCapabilities = [CapBase10] /\
  (CapBase11 ∈ [CapBase10; CapBase11] ->
   exists s',
     NewSession_resume (greeted [CapBase10; CapBase11]) =
       NSReturn (Some s') None /\
     sent s' = sent (greeted [CapBase10; CapBase11]) ++
               [EnvHello (mkHello [CapBase11])] /\
     chunked s' = true) /\
  (CapBase11 ∉ [CapBase10; CapBase11] ->
   exists s',
     NewSession_resume (greeted [CapBase10; CapBase11]) =
       NSReturn (Some s') None /\
     sent s' = sent (greeted [CapBase10; CapBase11]) ++
               [EnvHello (mkHello DefaultCapabilities)] /\
     chunked s' = chunked (greeted [CapBase10; CapBase11])).
Proof.
  apply (NewSession_negotiates (greeted [CapBase10; CapBase11])
           (mkHello [CapBase10; CapBase11])).
  - vm_compute. reflexivity.
  - intros m. vm_compute. reflexivity.
Defined.

(** ** Submission failures *)





(** ** Notifications *)

(** The notification branch never looks at the decode error. *)
Lemma notification_iter (el : Element) (s : sesImpl) :
  handleInput_iter (StartElement notification el) s =
    match subchan s with
    | Some c => send_n c (reshape (dec_notif el)) s
    | None => Continue s
    end.
Proof. by switch_name. Qed.

Example notification_body_example :
  notification_body (mkEvent (mkName "urn:ex" "alarm") "<sev>3</sev>") =
    "<alarm xmlns=" +:+ dquote +:+ "urn:ex" +:+ dquote +:+
    "><sev>3</sev></alarm>".
Proof. reflexivity. Qed.

(** C8.  For a notification envelope that decodes without error: with a
    subscriber channel registered (and open), the loop hands that
    channel one notification and goes on; its element name and its
    timestamp are the decoded ones, and its body is the decoded event
    text wrapped in a synthesized element, an opening tag with the
    event's local name and its namespace as [xmlns] attribute, then the
    text, then the closing tag.  With no subscriber registered the loop
    goes on with the session unchanged, nothing delivered. *)
Theorem notification_delivered_or_dropped (el : Element) (s : sesImpl) :
  dec_err el = None ->
  (forall c,
     subchan s = Some c -> c ∉ closed_n s ->
     exists n,
       handleInput_iter (StartElement notification el) s =
         Continue (set_notified (notified s ++ [(c, n)]) s) /\
       NXMLName n = XMLName (NEvent (dec_notif el)) /\
       NEventTime n = EventTime (dec_notif el) /\
       NBody n =
         "<" +:+ Local (XMLName (NEvent (dec_notif el))) +:+
         " xmlns=" +:+ String (Ascii.ascii_of_nat 34) EmptyString +:+
         Space (XMLName (NEvent (dec_notif el))) +:+
         String (Ascii.ascii_of_nat 34) EmptyString +:+ ">" +:+
         Event (NEvent (dec_notif el)) +:+
         "</" +:+ Local (XMLName (NEvent (dec_notif el))) +:+ ">") /\
  (subchan s = None ->
   handleInput_iter (StartElement notification el) s = Continue s).
Proof.
  intros _. rewrite notification_iter. split.
  - intros c -> Hopen. unfold send_n. rewrite decide_False by done.
    eexists. split; [reflexivity|]. done.
  - by intros ->.
Qed.

Lemma notification_delivered_or_dropped_witness :
  (forall c,
     subchan two_pending = Some c -> c ∉ closed_n two_pending ->
     exists n,
       handleInput_iter (StartElement notification (alarm_element None))
         two_pending =
         Continue (set_notified (notified two_pending ++ [(c, n)])
                     two_pending) /\
       NXMLName n = XMLName (NEvent (dec_notif (alarm_element None))) /\
       NEventTime n = EventTime (dec_notif (alarm_element None)) /\
       NBody n =
         "<" +:+ Local (XMLName (NEvent (dec_notif (alarm_element None)))) +:+
         " xmlns=" +:+ String (Ascii.ascii_of_nat 34) EmptyString +:+
         Space (XMLName (NEvent (dec_notif (alarm_element None)))) +:+
         String (Ascii.ascii_of_nat 34) EmptyString +:+ ">" +:+
         Event (NEvent (dec_notif (alarm_element None))) +:+
         "</" +:+ Local (XMLName (NEvent (dec_notif (alarm_element None)))) +:+
         ">") /\
  (subchan two_pending = None ->
   handleInput_iter (StartElement notification (alarm_element None))
     two_pending = Continue two_pending).
Proof.
  apply (notification_delivered_or_dropped (alarm_element None) two_pending).
  reflexivity.
Defined.

(** ** Replies nobody waits for *)

Lemma take_task_nil_task c r (ts : list (rchan * RPCReply)) :
  take_task c (ts ++ [(None, r)]) =
    match take_task c ts with
    | Some (r', rest) => Some (r', rest ++ [(None, r)])
    | None => None
    end.
Proof.
  induction ts as [|[ch r0] ts IH]; cbn [take_task app].
  - by rewrite decide_False.
  - destruct (decide (ch = Some c)); [done|]. rewrite IH.
    by destruct (take_task c ts) as [[r' rest]|].
Qed.

(** C9.  When an rpc-reply is decoded while the correlation queue is
    empty, [popRespChan] yields the nil channel and leaves the session
    as it was; the loop starts a delivery task for that reply on the
    nil channel, one more entry at the end of the tasks, and changes
    nothing else; every receive, on whatever channel, yields what it
    would yield without that task and leaves the task in place, so the
    reply reaches no caller; and the dispatch loop goes on with the
    next token. *)
Theorem reply_with_empty_queue
  (el : Element) (ts : list token) (s : sesImpl) :
  responseq s = [] ->
  dec_err el = None ->
  popRespChan s = (None, s) /\
  exists s1,
    handleInput_iter (StartElement nameRPCReply el) s = Continue s1 /\
    tasks s1 = tasks s ++ [(None : rchan, dec_reply el)] /\
    set_tasks (tasks s) s1 = s /\
    (forall ch,
       recv ch s1 =
         match recv ch s with
         | Some (v, s') =>
             Some (v, set_tasks (tasks s' ++ [(None : rchan, dec_reply el)])
                        s')
         | None => None
         end) /\
    handleInput (StartElement nameRPCReply el :: ts) s = handleInput ts s1.
Proof.
  intros Hq Herr.
  assert (Hpop : popRespChan s = (None, s)).
  { unfold popRespChan. by rewrite Hq. }
  assert (Hiter : handleInput_iter (StartElement nameRPCReply el) s =
                  Continue (spawn_delivery None (dec_reply el) s)).
  { switch_name. by rewrite Herr, Hpop. }
  split; [done|]. exists (spawn_delivery None (dec_reply el) s).
  split; [done|]. split; [done|]. split; [by destruct s|]. split.
  - intros [c|]; [|done]. unfold recv, spawn_delivery.
    cbn [tasks set_tasks closed_r]. rewrite take_task_nil_task.
    destruct (take_task c (tasks s)) as [[r' rest]|]; [done|].
    by destruct (decide (c ∈ closed_r s)).
  - cbn [handleInput]. by rewrite Hiter.
Qed.

Lemma reply_with_empty_queue_witness :
  popRespChan (negotiated always_ok) = (None, negotiated always_ok) /\
  exists s1,
    handleInput_iter (rpc_reply_token (mkReply "late"))
      (negotiated always_ok) = Continue s1 /\
    tasks s1 =
      tasks (negotiated always_ok) ++ [(None : rchan, mkReply "late")] /\
    set_tasks (tasks (negotiated always_ok)) s1 = negotiated always_ok /\
    (forall ch,
       recv ch s1 =
         match recv ch (negotiated always_ok) with
         | Some (v, s') =>
             Some (v, set_tasks (tasks s' ++ [(None : rchan, mkReply "late")])
                        s')
         | None => None
         end) /\
    handleInput [rpc_reply_token (mkReply "late"); TokenError EOF]
      (negotiated always_ok) =
      handleInput [TokenError EOF] s1.
Proof.
  apply (reply_with_empty_queue
           (mkElement (mkHello []) (mkReply "late")
              zeroNotificationMessage None)
           [TokenError EOF] (negotiated always_ok)); reflexivity.
Defined.

(** ** Decode errors *)

(** C10.  Let [DecodeElement] fail with error [e] on the element [el].
    For a notification envelope the error is dropped: nothing is
    logged, the notification built from whatever the decoder left in
    its target goes to the subscriber if one is registered (and open),
    and the loop goes on with the next token.  For a hello or an
    rpc-reply envelope the error is logged and the loop is left, which
    runs teardown. *)
Theorem notification_decode_error_ignored
  (el : Element) (e : error) (ts : list token) (s : sesImpl) :
  dec_err el = Some e ->
  (forall c,
     subchan s = Some c -> c ∉ closed_n s ->
     handleInput (StartElement notification el :: ts) s =
       handleInput ts
         (set_notified (notified s ++ [(c, reshape (dec_notif el))]) s)) /\
  (subchan s = None ->
   handleInput (StartElement notification el :: ts) s = handleInput ts s) /\
  handleInput_iter (StartElement nameHello el) s =
    Break (log (LogDecodeError e) s) /\
  handleInput_iter (StartElement nameRPCReply el) s =
    Break (log (LogDecodeError e) s) /\
  handleInput (StartElement nameHello el :: ts) s =
    leave false (log (LogDecodeError e) s) /\
  handleInput (StartElement nameRPCReply el :: ts) s =
    leave false (log (LogDecodeError e) s).
Proof.
  intros Herr.
  assert (Hh : handleInput_iter (StartElement nameHello el) s =
               Break (log (LogDecodeError e) s)).
  { switch_name. by rewrite Herr. }
  assert (Hr : handleInput_iter (StartElement nameRPCReply el) s =
               Break (log (LogDecodeError e) s)).
  { switch_name. by rewrite Herr. }
  repeat split; try done.
  - intros c Hsub Hopen. cbn [handleInput]. rewrite notification_iter, Hsub.
    unfold send_n. by rewrite decide_False.
  - intros Hsub. cbn [handleInput]. by rewrite notification_iter, Hsub.
  - cbn [handleInput]. by rewrite Hh.
  - cbn [handleInput]. by rewrite Hr.
Qed.

Lemma notification_decode_error_ignored_witness :
  (forall c,
     subchan two_pending = Some c -> c ∉ closed_n two_pending ->
     handleInput
       [StartElement notification (alarm_element (Some (Err "bad xml")))]
       two_pending =
       handleInput []
         (set_notified
            (notified two_pending ++
             [(c, reshape (dec_notif (alarm_element (Some (Err "bad xml")))))])
            two_pending)) /\
  (subchan two_pending = None ->
   handleInput
     [StartElement notification (alarm_element (Some (Err "bad xml")))]
     two_pending = handleInput [] two_pending) /\
  handleInput_iter
    (StartElement nameHello (alarm_element (Some (Err "bad xml"))))
    two_pending =
    Break (log (LogDecodeError (Err "bad xml")) two_pending) /\
  handleInput_iter
    (StartElement nameRPCReply (alarm_element (Some (Err "bad xml"))))
    two_pending =
    Break (log (LogDecodeError (Err "bad xml")) two_pending) /\
  handleInput
    [StartElement nameHello (alarm_element (Some (Err "bad xml")))]
    two_pending =
    leave false (log (LogDecodeError (Err "bad xml")) two_pending) /\
  handleInput
    [StartElement nameRPCReply (alarm_element (Some (Err "bad xml")))]
    two_pending =
    leave false (log (LogDecodeError (Err "bad xml")) two_pending).
Proof.
  apply (notification_decode_error_ignored
           (alarm_element (Some (Err "bad xml"))) (Err "bad xml") []
           two_pending).
  reflexivity.
Defined.

(** The dispatch loop on a notification whose decoding failed: the
    notification is delivered to subscriber 1, nothing is logged and
    the loop is still reading. *)
Example notification_decode_error_run :
  exists s',
    handleInput
      [StartElement notification (alarm_element (Some (Err "bad xml")))]
      two_pending = Reading s' /\
    notified s' =
      [(1, mkNotif (mkName "urn:ex" "alarm") "2019-01-01T00:00:00Z"
             (notification_body
                (mkEvent (mkName "urn:ex" "alarm") "<sev>3</sev>")))] /\
    evtlog s' = [].
Proof.
  eexists. split; [vm_compute; reflexivity|]. split; reflexivity.
Qed.

(** * Further properties of the session engine *)

(** ** The channel pool is a stack *)

Lemma allocChan_last (s : sesImpl) (l : list rchan) (ch : rchan) :
  pool s = l ++ [ch] ->
  allocChan s = (ch, set_pool l s).
Proof.
  intros Hp. unfold allocChan. rewrite Hp.
  by rewrite last_snoc, removelast_last.
Qed.

Lemma relChans_frame (chs : list rchan) : forall s,
  pool (relChans chs s) = pool s ++ chs /\
  next_chan (relChans chs s) = next_chan s /\
  responseq (relChans chs s) = responseq s.
Proof.
  induction chs as [|ch chs IH]; intros s; cbn [relChans foldl].
  - by rewrite app_nil_r.
  - destruct (IH (relChan ch s)) as (Hp & Hn & Hq).
    unfold relChans in *. rewrite Hp, Hn, Hq. simpl.
    by rewrite <- app_assoc.
Qed.

Lemma allocChans_pool (chs : list rchan) : forall s l,
  pool s = l ++ chs ->
  fst (allocChans (length chs) s) = reverse chs /\
  pool (snd (allocChans (length chs) s)) = l /\
  next_chan (snd (allocChans (length chs) s)) = next_chan s /\
  responseq (snd (allocChans (length chs) s)) = responseq s.
Proof.
  induction chs as [|ch chs IH] using rev_ind; intros s l Hp.
  - simpl in *. by rewrite app_nil_r in Hp.
  - rewrite length_app, Nat.add_1_r. cbn [allocChans length].
    rewrite app_assoc in Hp. rewrite (allocChan_last s _ ch Hp).
    destruct (IH (set_pool (l ++ chs) s) l eq_refl) as (Hf & Hpool & Hn & Hq).
    destruct (allocChans (length chs) _) as [got s2]. simpl in *.
    rewrite reverse_snoc. by rewrite Hf.
Qed.

(** X1.  The pool is a stack: after releasing the channels [chs] one
    after the other, as many allocations hand the same channels back,
    last released first, create no channel, and leave the pool as it
    was before the releases. *)
Theorem pool_is_lifo (chs : list rchan) (s : sesImpl) :
  fst (allocChans (length chs) (relChans chs s)) = reverse chs /\
  pool (snd (allocChans (length chs) (relChans chs s))) = pool s /\
  next_chan (snd (allocChans (length chs) (relChans chs s))) = next_chan s.
Proof.
  destruct (relChans_frame chs s) as (Hp & Hn & _).
  destruct (allocChans_pool chs (relChans chs s) (pool s) Hp)
    as (Hf & Hpool & Hn' & _).
  by rewrite Hf, Hpool, Hn', Hn.
Qed.

(** ** Execute end to end *)

Lemma take_task_snoc_hit c r (ts : list (rchan * RPCReply)) :
  take_task c ts = None ->
  take_task c (ts ++ [(Some c : rchan, r)]) = Some (r, ts).
Proof.
  induction ts as [|[ch r0] ts IH]; cbn [take_task app]; intros Hnone.
  - by rewrite decide_True.
  - destruct (decide (ch = Some c)); [done|].
    destruct (take_task c ts) as [[r' rest]|]; [done|].
    by rewrite IH.
Qed.

Lemma allocChan_cases (s : sesImpl) :
  pool (snd (allocChan s)) = removelast (pool s) /\
  (pool s <> [] -> removelast (pool s) ++ [fst (allocChan s)] = pool s) /\
  enc (snd (allocChan s)) = enc s /\
  next_uuid (snd (allocChan s)) = next_uuid s /\
  responseq (snd (allocChan s)) = responseq s /\
  tasks (snd (allocChan s)) = tasks s /\
  closed_r (snd (allocChan s)) = closed_r s.
Proof.
  unfold allocChan, make_rchan.
  destruct (last (pool s)) as [ch|] eqn:El.
  - apply last_Some in El as [l ->]. simpl.
    rewrite removelast_last. done.
  - apply last_None in El. rewrite El. done.
Qed.

(** X2.  With nothing outstanding and no stale delivery waiting on the
    channel it is given, [Execute] returns exactly the reply the peer
    sends next, with no error; afterwards the queue is empty again and
    the channel is back on top of the pool, so a non-empty pool is
    exactly what it was and an empty one has gained that channel. *)
Theorem Execute_returns_next_reply
  (req : Request) (r : RPCReply) (c : nat) (s : sesImpl) :
  responseq s = [] ->
  enc s (EnvRPC (mkRPC (next_uuid s) req)) = None ->
  fst (allocChan s) = Some c ->
  take_task c (tasks s) = None ->
  exists s1 s2 s3,
    Execute req s = Waiting (Some c) s1 /\
    handleInput_iter (rpc_reply_token r) s1 = Continue s2 /\
    Execute_resume (Some c) s2 = Some ((Some r, None), s3) /\
    responseq s3 = [] /\
    tasks s3 = tasks s /\
    pool s3 = removelast (pool s) ++ [Some c] /\
    (pool s <> [] -> pool s3 = pool s).
Proof.
  intros Hq Henc Hc Ht.
  destruct (allocChan_cases s) as (Hp & Hback & He & Hu & Hq0 & Ht0 & _).
  unfold Execute. destruct (allocChan s) as [rch s0]. cbn [fst snd] in *.
  subst rch.
  rewrite (ExecuteAsync_ok req (Some c) s0) by (by rewrite He, Hu).
  eexists _, _, _. split; [reflexivity|].
  rewrite reply_iter. unfold popRespChan, pushRespChan. simpl.
  rewrite Hq0, Hq. simpl. split; [reflexivity|].
  unfold Execute_resume, recv, spawn_delivery. simpl.
  rewrite Ht0, (take_task_snoc_hit c r (tasks s) Ht). simpl.
  split; [reflexivity|]. simpl. rewrite Hp. done.
Qed.

Lemma Execute_returns_next_reply_witness :
  exists s1 s2 s3,
    Execute "<get-config/>" (negotiated always_ok) = Waiting (Some 0) s1 /\
    handleInput_iter (rpc_reply_token (mkReply "<data/>")) s1 =
      Continue s2 /\
    Execute_resume (Some 0) s2 = Some ((Some (mkReply "<data/>"), None), s3) /\
    responseq s3 = [] /\
    tasks s3 = tasks (negotiated always_ok) /\
    pool s3 = removelast (pool (negotiated always_ok)) ++ [Some 0] /\
    (pool (negotiated always_ok) <> [] ->
     pool s3 = pool (negotiated always_ok)).
Proof.
  apply (Execute_returns_next_reply "<get-config/>" (mkReply "<data/>") 0
           (negotiated always_ok)); reflexivity.
Defined.

(** X3.  A channel that teardown has closed and a caller has put back
    in the pool poisons the pool: the next [Execute] that can still
    write its request is handed that channel, returns at once with the
    nil reply and no error, puts the channel back on top of the pool,
    and leaves one more slot on the correlation queue. *)
Theorem Execute_on_pooled_closed_channel
  (req : Request) (c : nat) (l : list rchan) (s : sesImpl) :
  pool s = l ++ [Some c] ->
  c ∈ closed_r s ->
  take_task c (tasks s) = None ->
  enc s (EnvRPC (mkRPC (next_uuid s) req)) = None ->
  exists s1 s2,
    Execute req s = Waiting (Some c) s1 /\
    Execute_resume (Some c) s1 = Some ((None, None), s2) /\
    pool s2 = pool s /\
    responseq s2 = responseq s ++ [Some c].
Proof.
  intros Hp Hc Ht Henc. unfold Execute.
  rewrite (allocChan_last s l (Some c) Hp).
  rewrite (ExecuteAsync_ok req (Some c) (set_pool l s)) by done.
  eexists _, _. split; [reflexivity|].
  unfold Execute_resume, recv. simpl. rewrite Ht.
  rewrite decide_True by done. split; [reflexivity|]. simpl.
  by rewrite Hp.
Qed.

(** The session of [parked_then_closed] once the parked caller has
    returned and released its closed channel. *)
Lemma Execute_on_pooled_closed_channel_witness :
  exists s1 s2,
    Execute "<get/>" (relChan (Some 0) parked_then_closed) =
      Waiting (Some 0) s1 /\
    Execute_resume (Some 0) s1 = Some ((None, None), s2) /\
    pool s2 = pool (relChan (Some 0) parked_then_closed) /\
    responseq s2 =
      responseq (relChan (Some 0) parked_then_closed) ++ [Some 0].
Proof.
  apply (Execute_on_pooled_closed_channel "<get/>" 0 []
           (relChan (Some 0) parked_then_closed)).
  - vm_compute. reflexivity.
  - apply (bool_decide_unpack _). vm_compute. exact I.
  - vm_compute. reflexivity.
  - vm_compute. reflexivity.
Defined.

(** ** What reaches the transport *)

(** X4.  In any run that goes through, the rpc payloads written to the
    transport since its start are the submitted requests, one envelope
    each, in submission order: the dispatch loop writes nothing, and no
    request is written twice or out of turn. *)
Theorem requests_written_in_order (evs : list event) (s s' : sesImpl) :
  run evs s = Some s' ->
  omap rpc_payload (sent s') = omap rpc_payload (sent s) ++ requests evs.
Proof.
  revert s s'.
  induction evs as [|[req ch|r] evs IH]; intros s s' Hrun;
    cbn [run run_event requests] in Hrun |- *.
  - simplify_eq. by rewrite app_nil_r.
  - destruct (enc s (EnvRPC (mkRPC (next_uuid s) req))) as [e|] eqn:Henc.
    + by rewrite (ExecuteAsync_err req ch s e Henc) in Hrun.
    + rewrite (ExecuteAsync_ok req ch s Henc) in Hrun.
      rewrite (IH _ _ Hrun). simpl. rewrite omap_app. simpl.
      by rewrite <- app_assoc.
  - rewrite reply_iter in Hrun. rewrite (IH _ _ Hrun).
    unfold spawn_delivery, popRespChan. by destruct (responseq s).
Qed.

Lemma requests_written_in_order_witness :
  omap rpc_payload
    (sent (after [EvSubmit "<get/>" (Some 3); EvSubmit "<lock/>" (Some 5)]
             (negotiated always_ok))) =
    omap rpc_payload (sent (negotiated always_ok)) ++
    requests [EvSubmit "<get/>" (Some 3); EvSubmit "<lock/>" (Some 5)].
Proof.
  apply (requests_written_in_order
           [EvSubmit "<get/>" (Some 3); EvSubmit "<lock/>" (Some 5)]
           (negotiated always_ok)).
  vm_compute. reflexivity.
Defined.

(** X5.  A submission whose encode step fails still takes a place in
    line: when the next request, on channel [b], is written and
    answered, its reply is handed to the channel [a] of the failed
    submission, and [b] is left waiting on the queue. *)
Theorem failed_submission_shifts_correlation
  (req1 req2 : Request) (a b : rchan) (e : error) (r : RPCReply)
  (s : sesImpl) :
  responseq s = [] ->
  enc s (EnvRPC (mkRPC (next_uuid s) req1)) = Some e ->
  enc s (EnvRPC (mkRPC (S (next_uuid s)) req2)) = None ->
  exists s1 s2 s3,
    ExecuteAsync req1 a s = (Some e, s1) /\
    ExecuteAsync req2 b s1 = (None, s2) /\
    omap rpc_payload (sent s2) = omap rpc_payload (sent s) ++ [req2] /\
    handleInput_iter (rpc_reply_token r) s2 = Continue s3 /\
    tasks s3 = tasks s ++ [(a, r)] /\
    responseq s3 = [b].
Proof.
  intros Hq He1 He2.
  rewrite (ExecuteAsync_err req1 a s e He1).
  eexists _, _, _. split; [reflexivity|].
  rewrite ExecuteAsync_ok by done. split; [reflexivity|].
  split; [simpl; by rewrite omap_app|].
  rewrite reply_iter. unfold popRespChan, pushRespChan. simpl.
  rewrite Hq. simpl. done.
Qed.

(** An encoder that fails on the first identifier drawn only. *)
Lemma failed_submission_shifts_correlation_witness :
  exists s1 s2 s3,
    ExecuteAsync "<get/>" (Some 3)
      (set_enc (fun m => match m with
                         | EnvRPC (mkRPC 0 _) => Some (Err "marshal")
                         | _ => None
                         end) (negotiated always_ok)) =
      (Some (Err "marshal"), s1) /\
    ExecuteAsync "<lock/>" (Some 5) s1 = (None, s2) /\
    omap rpc_payload (sent s2) =
      omap rpc_payload
        (sent (set_enc (fun m => match m with
                                 | EnvRPC (mkRPC 0 _) => Some (Err "marshal")
                                 | _ => None
                                 end) (negotiated always_ok))) ++
      ["<lock/>"] /\
    handleInput_iter (rpc_reply_token (mkReply "locked")) s2 = Continue s3 /\
    tasks s3 =
      tasks (set_enc (fun m => match m with
                               | EnvRPC (mkRPC 0 _) => Some (Err "marshal")
                               | _ => None
                               end) (negotiated always_ok)) ++
      [(Some 3, mkReply "locked")] /\
    responseq s3 = [Some 5].
Proof.
  apply (failed_submission_shifts_correlation "<get/>" "<lock/>"
           (Some 3) (Some 5) (Err "marshal") (mkReply "locked")
           (set_enc (fun m => match m with
                              | EnvRPC (mkRPC 0 _) => Some (Err "marshal")
                              | _ => None
                              end) (negotiated always_ok)));
    reflexivity.
Defined.

(** ** What teardown does to an arbitrary queue *)

(** The drain loop works through any stretch of closable entries at the
    head of the queue, one pass each. *)
Lemma closeAll_loop_prefix (pre : list rchan) : forall (rest : list rchan) s,
  responseq s = pre ++ rest ->
  NoDup pre ->
  Forall (open_chan s) pre ->
  exists s',
    responseq s' = rest /\
    (forall c, c ∈ closed_r s' <-> Some c ∈ pre \/ c ∈ closed_r s) /\
    forall n, closeAll_loop (length pre + n) s = closeAll_loop n s'.
Proof.
  induction pre as [|ch pre IH]; intros rest s Hq Hnd Hopen.
  - exists s. split; [done|]. split; [|done].
    intros c. split; [by right|]. intros [H|H]; [|done].
    by apply elem_of_nil in H.
  - apply NoDup_cons in Hnd as [Hnotin Hnd].
    apply Forall_cons in Hopen as [Hch Hopen].
    destruct ch as [c|]; [|done]. simpl in Hch.
    set (s1 := set_closed_r ({[c]} ∪ closed_r s)
                 (set_responseq (pre ++ rest) s)).
    destruct (IH rest s1) as (s' & Hq' & Hcl & Hloop).
    + done.
    + done.
    + apply Forall_forall. intros [d|] Hd.
      * rewrite Forall_forall in Hopen. specialize (Hopen _ Hd).
        simpl in *. intros [->%elem_of_singleton|H]%elem_of_union; done.
      * rewrite Forall_forall in Hopen. by specialize (Hopen _ Hd).
    + exists s'. split; [done|]. split.
      * intros d. rewrite Hcl. subst s1. simpl.
        rewrite elem_of_union, elem_of_singleton, elem_of_cons.
        split; [intros [H|[->|H]]|intros [[[= ->]|H]|H]]; auto.
      * intros n. cbn [length Nat.add closeAll_loop].
        unfold popRespChan. rewrite Hq. cbn [app].
        unfold close_r. cbn [closed_r set_responseq].
        rewrite decide_False by done. apply Hloop.
Qed.

(** X6.  The drain of the correlation queue takes a nil entry for the
    end of the queue: it closes the closable channels in front of the
    first nil entry, returns normally, and leaves every entry behind it
    on the queue with no channel closed beyond those in front. *)
Theorem drain_stops_at_nil (pre post : list rchan) (s : sesImpl) :
  responseq s = pre ++ None :: post ->
  NoDup pre ->
  Forall (open_chan s) pre ->
  exists s',
    closeAllResponseChannels s = Some (Normal s') /\
    responseq s' = post /\
    (forall c, c ∈ closed_r s' <-> Some c ∈ pre \/ c ∈ closed_r s).
Proof.
  intros Hq Hnd Hopen.
  destruct (closeAll_loop_prefix pre (None :: post) s Hq Hnd Hopen)
    as (s' & Hq' & Hcl & Hloop).
  exists (set_responseq post s'). split; [|done].
  unfold closeAllResponseChannels. rewrite Hq, length_app.
  cbn [length]. rewrite <- Nat.add_succ_r, Hloop.
  cbn [closeAll_loop]. unfold popRespChan. by rewrite Hq'.
Qed.

Lemma drain_stops_at_nil_witness :
  exists s',
    closeAllResponseChannels
      (after [EvSubmit "<a/>" (Some 3); EvSubmit "<b/>" None;
              EvSubmit "<c/>" (Some 5)] (negotiated always_ok)) =
      Some (Normal s') /\
    responseq s' = [Some 5] /\
    (forall c,
       c ∈ closed_r s' <->
       Some c ∈ [Some 3] \/
       c ∈ closed_r
             (after [EvSubmit "<a/>" (Some 3); EvSubmit "<b/>" None;
                     EvSubmit "<c/>" (Some 5)] (negotiated always_ok))).
Proof.
  apply (drain_stops_at_nil [Some 3] [Some 5]
           (after [EvSubmit "<a/>" (Some 3); EvSubmit "<b/>" None;
                   EvSubmit "<c/>" (Some 5)] (negotiated always_ok))).
  - vm_compute. reflexivity.
  - apply (bool_decide_unpack _). vm_compute. exact I.
  - apply (bool_decide_unpack _). vm_compute. exact I.
Defined.

(** X7.  When the drain meets a channel that is already closed, or that
    stood earlier on the queue (the same channel submitted twice, or
    pooled and submitted again after a failed encode), the second
    [close] panics: teardown ends in a panic and the entries behind
    that channel are never closed. *)
Theorem drain_panics_on_closed_entry
  (pre post : list rchan) (c : nat) (s : sesImpl) :
  responseq s = pre ++ Some c :: post ->
  NoDup pre ->
  Forall (open_chan s) pre ->
  Some c ∈ pre \/ c ∈ closed_r s ->
  exists s',
    closeAllResponseChannels s = Some (Panic s') /\
    responseq s' = post /\
    (forall d, d ∈ closed_r s' <-> Some d ∈ pre \/ d ∈ closed_r s).
Proof.
  intros Hq Hnd Hopen Hc.
  destruct (closeAll_loop_prefix pre (Some c :: post) s Hq Hnd Hopen)
    as (s' & Hq' & Hcl & Hloop).
  exists (set_responseq post s'). split; [|done].
  unfold closeAllResponseChannels. rewrite Hq, length_app.
  cbn [length]. rewrite <- Nat.add_succ_r, Hloop.
  cbn [closeAll_loop]. unfold popRespChan. rewrite Hq'.
  unfold close_r. cbn [closed_r set_responseq].
  rewrite decide_True; [done|]. by apply Hcl.
Qed.

Lemma drain_panics_on_closed_entry_witness :
  exists s',
    closeAllResponseChannels
      (after [EvSubmit "<a/>" (Some 3); EvSubmit "<b/>" (Some 3);
              EvSubmit "<c/>" (Some 5)] (negotiated always_ok)) =
      Some (Panic s') /\
    responseq s' = [Some 5] /\
    (forall d,
       d ∈ closed_r s' <->
       Some d ∈ [Some 3] \/
       d ∈ closed_r
             (after [EvSubmit "<a/>" (Some 3); EvSubmit "<b/>" (Some 3);
                     EvSubmit "<c/>" (Some 5)] (negotiated always_ok))).
Proof.
  apply (drain_panics_on_closed_entry [Some 3] [Some 5] 3
           (after [EvSubmit "<a/>" (Some 3); EvSubmit "<b/>" (Some 3);
                   EvSubmit "<c/>" (Some 5)] (negotiated always_ok))).
  - vm_compute. reflexivity.
  - apply (bool_decide_unpack _). vm_compute. exact I.
  - apply (bool_decide_unpack _). vm_compute. exact I.
  - left. apply list_elem_of_singleton. reflexivity.
Defined.

(** ** The dispatch loop over a token stream *)

(** X9.  With a subscriber registered on an open channel, a stretch of
    notification envelopes is delivered to it one for one in arrival
    order, whether or not each decoded cleanly, and the loop is still
    reading afterwards. *)
Theorem notifications_in_arrival_order
  (els : list Element) (c : nat) (s : sesImpl) :
  subchan s = Some c ->
  c ∉ closed_n s ->
  handleInput (StartElement notification <$> els) s =
    Reading
      (set_notified
         (notified s ++ ((fun el => (c, reshape (dec_notif el))) <$> els))
         s).
Proof.
  revert s. induction els as [|el els IH]; intros s Hsub Hopen;
    cbn [fmap list_fmap handleInput].
  - rewrite app_nil_r. by destruct s.
  - rewrite notification_iter, Hsub. unfold send_n.
    rewrite decide_False by done.
    rewrite (IH (set_notified _ s)) by done. simpl.
    by rewrite <- app_assoc.
Qed.

Lemma notifications_in_arrival_order_witness :
  handleInput
    (StartElement notification <$>
       [alarm_element None; alarm_element (Some (Err "bad xml"))])
    two_pending =
    Reading
      (set_notified
         (notified two_pending ++
          ((fun el => (1, reshape (dec_notif el))) <$>
             [alarm_element None; alarm_element (Some (Err "bad xml"))]))
         two_pending).
Proof.
  apply (notifications_in_arrival_order
           [alarm_element None; alarm_element (Some (Err "bad xml"))]
           1 two_pending).
  - reflexivity.
  - apply (bool_decide_unpack _). vm_compute. exact I.
Defined.

Lemma ignorable_iter (t : token) (s : sesImpl) :
  ignorable t ->
  exists s',
    handleInput_iter t s = Continue s' /\
    set_evtlog (evtlog s) s' = s.
Proof.
  destruct t as [e|n el|]; simpl; [done| |].
  - intros (Hh & Hr & Hn). rewrite !decide_False by done.
    eexists. split; [reflexivity|]. by destruct s.
  - intros _. exists s. split; [done|]. by destruct s.
Qed.

(** X10.  Tokens that are not start elements, and start elements whose
    name is none of hello, rpc-reply and notification, never end the
    loop and change nothing but the log: queue, pool, subscriber,
    channels, delivery tasks and transport are as before. *)
Theorem ignorable_tokens_change_only_the_log
  (ts : list token) (s : sesImpl) :
  Forall ignorable ts ->
  exists s',
    handleInput ts s = Reading s' /\
    set_evtlog (evtlog s) s' = s.
Proof.
  revert s. induction ts as [|t ts IH]; intros s Hall; cbn [handleInput].
  - exists s. split; [done|]. by destruct s.
  - apply Forall_cons in Hall as [Ht Hall].
    destruct (ignorable_iter t s Ht) as (s1 & -> & Hs1).
    destruct (IH s1 Hall) as (s' & -> & Hs').
    exists s'. split; [done|]. rewrite <- Hs1, <- Hs'. by destruct s'.
Qed.

Lemma ignorable_tokens_change_only_the_log_witness :
  exists s',
    handleInput
      [OtherToken; StartElement (mkName netconfNS "rpc") (alarm_element None)]
      two_pending = Reading s' /\
    set_evtlog (evtlog two_pending) s' = two_pending.
Proof.
  apply (ignorable_tokens_change_only_the_log
           [OtherToken;
            StartElement (mkName netconfNS "rpc") (alarm_element None)]
           two_pending).
  apply (bool_decide_unpack _). vm_compute. exact I.
Defined.

(** X11.  A hello envelope that arrives after the handshake has taken
    the first one blocks the dispatch loop for good in its send on the
    handshake channel: nothing behind it is handled, no reply is
    delivered and teardown does not run. *)
Theorem second_hello_stalls_the_loop
  (el : Element) (h : HelloMessage) (ts : list token) (s : sesImpl) :
  hellochan s = Some h ->
  hellochan_closed s = false ->
  dec_err el = None ->
  handleInput (StartElement nameHello el :: ts) s = Stalled s.
Proof.
  intros Hh Hc Herr. cbn [handleInput].
  assert (Hiter : handleInput_iter (StartElement nameHello el) s = Stall s).
  { switch_name. rewrite Herr. unfold send_hello. by rewrite Hc, Hh. }
  by rewrite Hiter.
Qed.

Lemma second_hello_stalls_the_loop_witness :
  handleInput
    [hello_token [CapBase10]; rpc_reply_token (mkReply "a"); TokenError EOF]
    two_pending = Stalled two_pending.
Proof.
  apply (second_hello_stalls_the_loop
           (mkElement (mkHello [CapBase10]) (mkReply EmptyString)
              zeroNotificationMessage None)
           (mkHello [CapBase10])
           [rpc_reply_token (mkReply "a"); TokenError EOF] two_pending);
    reflexivity.
Defined.

(** ** Subscribers *)

Lemma Subscribe_waiting (req : Request) (nch : nchan) (rch : rchan)
  (s s1 : sesImpl) :
  Subscribe req nch s = Waiting rch s1 ->
  subchan s1 = nch /\ closed_n s1 = closed_n s /\ notified s1 = notified s.
Proof.
  unfold Subscribe, allocChan, make_rchan, ExecuteAsync, encode.
  destruct (last (pool s)) as [ch|]; simpl;
    destruct (enc s _) as [e|]; intros H; simplify_eq; done.
Qed.

(** X12.  [Subscribe] registers the notification channel as soon as its
    request is written, before the reply is received: from then on a
    notification goes to the new channel alone, and registering the nil
    channel turns delivery off. *)
Theorem Subscribe_registers_at_once
  (req : Request) (nch : nchan) (rch : rchan) (el : Element)
  (s s1 : sesImpl) :
  Subscribe req nch s = Waiting rch s1 ->
  subchan s1 = nch /\
  (forall c,
     nch = Some c -> c ∉ closed_n s ->
     handleInput_iter (StartElement notification el) s1 =
       Continue
         (set_notified (notified s1 ++ [(c, reshape (dec_notif el))]) s1)) /\
  (nch = None ->
   handleInput_iter (StartElement notification el) s1 = Continue s1).
Proof.
  intros Hsub. destruct (Subscribe_waiting _ _ _ _ _ Hsub) as (Hn & Hc & _).
  split; [done|]. rewrite notification_iter, Hn. split.
  - intros c -> Hopen. unfold send_n. rewrite Hc. by rewrite decide_False.
  - by intros ->.
Qed.

Lemma Subscribe_registers_at_once_witness :
  subchan resubscribed = Some 2 /\
  (forall c,
     Some 2 = Some c ->
     c ∉ closed_n (set_subchan (Some 1) (negotiated always_ok)) ->
     handleInput_iter (StartElement notification (alarm_element None))
       resubscribed =
       Continue
         (set_notified
            (notified resubscribed ++
             [(c, reshape (dec_notif (alarm_element None)))]) resubscribed)) /\
  (Some 2 = None ->
   handleInput_iter (StartElement notification (alarm_element None))
     resubscribed = Continue resubscribed).
Proof.
  apply (Subscribe_registers_at_once "<create-subscription/>" (Some 2)
           (Some 0) (alarm_element None)
           (set_subchan (Some 1) (negotiated always_ok)) resubscribed).
  vm_compute. reflexivity.
Defined.

Lemma closeChannels_subscribers (s : sesImpl) :
  teardown_ready s ->
  exists s',
    closeChannels s = Some (Normal s') /\
    forall c, c ∈ closed_n s' <-> subchan s = Some c \/ c ∈ closed_n s.
Proof.
  intros (Hh & Hsub & Hnd & Hopen).
  unfold closeChannels, close_hello. rewrite Hh. simpl.
  destruct (subchan s) as [n|] eqn:En.
  - unfold close_n. simpl. rewrite decide_False by done.
    set (s1 := set_closed_n _ _).
    destruct (closeAll_loop_drains (responseq s)
                (S (length (responseq s1))) s1)
      as (s' & Hrun & _ & _ & _ & Hn & _); try done.
    + subst s1. simpl. lia.
    + exists s'. split; [done|]. intros c. rewrite Hn. subst s1. simpl.
      rewrite elem_of_union, elem_of_singleton.
      split; [intros [->|H]|intros [[= ->]|H]]; auto.
  - set (s1 := set_hellochan_closed true s).
    destruct (closeAll_loop_drains (responseq s)
                (S (length (responseq s1))) s1)
      as (s' & Hrun & _ & _ & _ & Hn & _); try done.
    + subst s1. simpl. lia.
    + exists s'. split; [done|]. intros c. rewrite Hn. subst s1. simpl.
      split; [by right|]. by intros [?|?].
Qed.

(** X13.  Teardown closes the subscriber channel registered at that
    moment and no other: a channel that a later [Subscribe] replaced is
    neither notified any more nor ever closed by the session. *)
Theorem replaced_subscriber_is_never_closed
  (req : Request) (old new : nat) (rch : rchan) (s s1 : sesImpl) :
  subchan s = Some old ->
  old <> new ->
  old ∉ closed_n s ->
  Subscribe req (Some new) s = Waiting rch s1 ->
  teardown_ready s1 ->
  exists s',
    closeChannels s1 = Some (Normal s') /\
    new ∈ closed_n s' /\
    old ∉ closed_n s'.
Proof.
  intros Hold Hne Hopen Hsub Hready.
  destruct (Subscribe_waiting _ _ _ _ _ Hsub) as (Hn & Hc & _).
  destruct (closeChannels_subscribers s1 Hready) as (s' & Hclose & Hcl).
  exists s'. split; [done|]. split.
  - apply Hcl. by left.
  - intros [H|H]%Hcl.
    + rewrite Hn in H. by simplify_eq.
    + by rewrite Hc in H.
Qed.

Lemma replaced_subscriber_is_never_closed_witness :
  exists s',
    closeChannels resubscribed = Some (Normal s') /\
    2 ∈ closed_n s' /\
    1 ∉ closed_n s'.
Proof.
  apply (replaced_subscriber_is_never_closed "<create-subscription/>" 1 2
           (Some 0) (set_subchan (Some 1) (negotiated always_ok))
           resubscribed).
  - reflexivity.
  - discriminate.
  - apply (bool_decide_unpack _). vm_compute. exact I.
  - vm_compute. reflexivity.
  - apply (bool_decide_unpack _). vm_compute. exact I.
Defined.

(** ** More on the handshake *)

(** X14.  When the reply hello cannot be written, [NewSession] returns
    no session and the encoder's error, whatever the server
    advertised. *)
Theorem handshake_encode_error_returns_no_session
  (srv : HelloMessage) (e : error) (s : sesImpl) :
  hellochan s = Some srv ->
  enc s (EnvHello
           (mkHello
              (fst (negotiate (Capabilities srv) DefaultCapabilities false))))
    = Some e ->
  NewSession_resume s = NSReturn None (Some e).
Proof.
  intros Hh Henc. unfold NewSession_resume, recv_hello. rewrite Hh.
  cbn [hello set_hello].
  destruct (negotiate _ _ _) as [caps ch]. unfold encode.
  cbn [enc set_hello fst] in *. by rewrite Henc.
Qed.

Lemma handshake_encode_error_returns_no_session_witness :
  NewSession_resume (set_enc always_fails (greeted [CapBase10; CapBase11])) =
    NSReturn None (Some (Err "broken pipe")).
Proof.
  apply (handshake_encode_error_returns_no_session
           (mkHello [CapBase10; CapBase11]) (Err "broken pipe")
           (set_enc always_fails (greeted [CapBase10; CapBase11])));
    vm_compute; reflexivity.
Defined.

Lemma before_hello_iter (t : token) (s : sesImpl) :
  before_hello t ->
  subchan s = None ->
  exists s',
    handleInput_iter t s = Continue s' /\
    subchan s' = None /\
    hellochan s' = hellochan s /\
    hellochan_closed s' = hellochan_closed s /\
    enc s' = enc s.
Proof.
  destruct t as [e|n el|]; simpl; [done| |].
  - intros (Hh & Hr) Hsub. rewrite decide_False by done.
    destruct (decide (n = nameRPCReply)) as [->|Hn].
    + rewrite (Hr eq_refl). unfold popRespChan.
      destruct (responseq s); eexists; split; try reflexivity; done.
    + destruct (decide (n = notification)) as [->|Hn'].
      * rewrite Hsub. by exists s.
      * eexists. split; [reflexivity|]. done.
  - intros _ Hsub. by exists s.
Qed.

(** X15.  [NewSession] does not return before the dispatch loop has
    decoded a hello or left the loop: while the transport has delivered
    only other tokens (replies, notifications, unknown elements, text)
    it is still waiting on the handshake channel. *)
Theorem NewSession_waits_for_hello
  (ts : list token) (encoder : Envelope -> option error) :
  Forall before_hello ts ->
  exists s, NewSession ts encoder = NSBlocked s.
Proof.
  intros Hall. unfold NewSession.
  assert (Hloop : forall s,
            subchan s = None ->
            exists s',
              handleInput ts s = Reading s' /\
              hellochan s' = hellochan s /\
              hellochan_closed s' = hellochan_closed s).
  { induction Hall as [|t ts Ht Hall IH]; intros s Hsub; cbn [handleInput].
    - by exists s.
    - destruct (before_hello_iter t s Ht Hsub)
        as (s1 & -> & Hsub1 & Hh1 & Hc1 & _).
      destruct (IH s1 Hsub1) as (s' & -> & Hh & Hc).
      exists s'. split; [done|]. by rewrite Hh, Hc. }
  destruct (Hloop (new_sesImpl encoder) eq_refl) as (s' & -> & Hh & Hc).
  exists s'. unfold NewSession_resume, recv_hello.
  by rewrite Hh, Hc.
Qed.

Lemma NewSession_waits_for_hello_witness :
  exists s,
    NewSession
      [OtherToken; rpc_reply_token (mkReply "early");
       StartElement notification (alarm_element (Some (Err "bad xml")))]
      always_ok = NSBlocked s.
Proof.
  apply (NewSession_waits_for_hello
           [OtherToken; rpc_reply_token (mkReply "early");
            StartElement notification (alarm_element (Some (Err "bad xml")))]
           always_ok).
  apply (bool_decide_unpack _). vm_compute. exact I.
Defined.

(** ** Teardown finishes *)

(** X16.  With no submission racing it, the drain of the correlation
    queue always finishes, after at most one pass per queue entry and
    one more; so teardown, and with it the dispatch loop once it is
    left, always ends in a return or a panic. *)
Theorem teardown_always_finishes (ts : list token) (s : sesImpl) :
  is_Some (closeAll_loop (S (length (responseq s))) s) /\
  is_Some (closeChannels s) /\
  handleInput ts s <> Diverged.
Proof.
  split; [apply closeAll_loop_terminates; lia|].
  split; [apply closeChannels_terminates|apply handleInput_never_diverges].
Qed.
